(** * PyBaMM: the symbolic expression tree, its two lowering passes and the
    model test harness, as a shallow embedding.

    Python objects become Rocq data: a [dict] with string keys is a [gmap],
    a [dict] keyed by symbols is an association list in insertion order, an
    exception is a constructor of [exn] carried by the [result] monad, and a
    number is an exact rational ([Qc]).

    The parameter functions of the Chu2020 set, the electrolyte diffusion
    submodel and the model test harness are embedded from their source
    files. The evaluator, the substitution pass and the discretisation are
    library code outside these files; each is written from the specification
    and says so where it is defined. *)

From Stdlib Require Import ZArith QArith Qcanon String List Lia.
From stdpp Require Import base option numbers strings list gmap.

Open Scope string_scope.
Open Scope list_scope.
Set Warnings "-register-all".

(* ===================================================================== *)
(** * Part 1: definitions *)
(* ===================================================================== *)

(** ** Python exceptions and the result monad *)

Inductive exn : Type :=
| KeyError (key : string)
| ValueError (msg : string)
| TypeError (msg : string)
| NotImplementedError (msg : string)
| ModelError (msg : string)
| OptionError (msg : string)
| DomainError (msg : string)
| ShapeError (msg : string).

Inductive result (A : Type) : Type :=
| Ok (a : A)
| Raise (e : exn).

Arguments Ok {A} a.
Arguments Raise {A} e.

#[global] Instance result_ret : MRet result := fun A a => Ok a.

#[global] Instance result_bind : MBind result := fun A B f m =>
  match m with
  | Ok a => f a
  | Raise e => Raise e
  end.

(** ** The expression tree *)

Inductive binop : Type := Addition | Subtraction | Multiplication | Division | Power.
Inductive unop : Type := Negate | AbsoluteValue | Function (name : string).
Inductive spatial_kind : Type := Grad | Div.

Inductive Symbol : Type :=
| Parameter' (name : string)
| FunctionParameter (name : string) (args : list Symbol)
| Variable' (name : string) (domain : list string)
| StateVector (first_index last_index : nat)
| Scalar (value : Qc)
| Time
| BinaryOperator (op : binop) (left right : Symbol)
| UnaryOperator (op : unop) (child : Symbol)
| SpatialOperator (kind : spatial_kind) (child : Symbol)
| Broadcast (child : Symbol) (target_domain : list string)
| Concatenation (children : list Symbol) (domains : list string).

(** [pre_order]: every node of the subtree, parent before children. *)
Fixpoint pre_order (s : Symbol) : list Symbol :=
  s ::
  match s with
  | FunctionParameter _ args => flat_map pre_order args
  | BinaryOperator _ l r => pre_order l ++ pre_order r
  | UnaryOperator _ c | SpatialOperator _ c | Broadcast c _ => pre_order c
  | Concatenation cs _ => flat_map pre_order cs
  | _ => []
  end.

(** [isinstance(x, (pybamm.Parameter, pybamm.FunctionParameter))] *)
Definition is_parameter (s : Symbol) : bool :=
  match s with
  | Parameter' _ | FunctionParameter _ _ => true
  | _ => false
  end.

(** The scan of [test_processing_parameters]:
    [any([isinstance(x, ...) for x in eqn.pre_order()])]. *)
Definition has_parameter (eqn : Symbol) : bool :=
  existsb is_parameter (pre_order eqn).

(** Induction over the tree with the hypothesis available for every child of
    a node that holds a list of children. *)
Section SymbolInd.
Variable P : Symbol -> Prop.
Hypothesis HParameter : forall n, P (Parameter' n).
Hypothesis HFunctionParameter :
  forall n args, Forall P args -> P (FunctionParameter n args).
Hypothesis HVariable : forall n d, P (Variable' n d).
Hypothesis HStateVector : forall a b, P (StateVector a b).
Hypothesis HScalar : forall q, P (Scalar q).
Hypothesis HTime : P Time.
Hypothesis HBinary : forall op l r, P l -> P r -> P (BinaryOperator op l r).
Hypothesis HUnary : forall op c, P c -> P (UnaryOperator op c).
Hypothesis HSpatial : forall k c, P c -> P (SpatialOperator k c).
Hypothesis HBroadcast : forall c d, P c -> P (Broadcast c d).
Hypothesis HConcatenation :
  forall cs d, Forall P cs -> P (Concatenation cs d).

Fixpoint Symbol_ind_nested (s : Symbol) : P s :=
  match s with
  | Parameter' n => HParameter n
  | FunctionParameter n args =>
      HFunctionParameter n args
        ((fix go (l : list Symbol) : Forall P l :=
            match l with
            | [] => List.Forall_nil P
            | x :: l' => List.Forall_cons P x l' (Symbol_ind_nested x) (go l')
            end) args)
  | Variable' n d => HVariable n d
  | StateVector a b => HStateVector a b
  | Scalar q => HScalar q
  | Time => HTime
  | BinaryOperator op l r =>
      HBinary op l r (Symbol_ind_nested l) (Symbol_ind_nested r)
  | UnaryOperator op c => HUnary op c (Symbol_ind_nested c)
  | SpatialOperator k c => HSpatial k c (Symbol_ind_nested c)
  | Broadcast c d => HBroadcast c d (Symbol_ind_nested c)
  | Concatenation cs d =>
      HConcatenation cs d
        ((fix go (l : list Symbol) : Forall P l :=
            match l with
            | [] => List.Forall_nil P
            | x :: l' => List.Forall_cons P x l' (Symbol_ind_nested x) (go l')
            end) cs)
  end.
End SymbolInd.

(** ** The evaluator

    Modelled from the spec: [Symbol.evaluate] is not among the sources; it is
    written here from section 4.1: children are evaluated in order, the node's
    operator is applied with broadcasting of numbers over arrays, a division by
    exact zero and a negative base with a non-integer exponent raise
    [DomainError]. Nodes that only exist before a lowering pass (parameters,
    variables, spatial operators, broadcasts) have no numeric value. *)

Inductive value : Type :=
| Num (q : Qc)
| Arr (a : list Qc).

#[global] Instance result_fmap : FMap result := fun A B f m =>
  match m with
  | Ok a => Ok (f a)
  | Raise e => Raise e
  end.

(** A value seen as a one-dimensional array (a number is one entry). *)
Definition as_array (v : value) : list Qc :=
  match v with
  | Num q => [q]
  | Arr a => a
  end.

Section Evaluator.

(** The numeric library: named functions ([exp], [tanh], ...) and powers. *)
Variable np_function : string -> Qc -> result Qc.
Variable np_power : Qc -> Qc -> Qc.

Definition is_integer (q : Qc) : bool := (Qden (this q) =? 1)%positive.

Definition binary_scalar (op : binop) (a b : Qc) : result Qc :=
  match op with
  | Addition => Ok (a + b)%Qc
  | Subtraction => Ok (a - b)%Qc
  | Multiplication => Ok (a * b)%Qc
  | Division =>
      if decide (b = 0%Qc) then Raise (DomainError "division by zero")
      else Ok (a / b)%Qc
  | Power =>
      if bool_decide (a < 0)%Qc && negb (is_integer b)
      then Raise (DomainError "negative base with non-integer exponent")
      else Ok (np_power a b)
  end.

Definition unary_scalar (op : unop) (a : Qc) : result Qc :=
  match op with
  | Negate => Ok (- a)%Qc
  | AbsoluteValue => Ok (if decide (a < 0)%Qc then (- a)%Qc else a)
  | Function name => np_function name a
  end.

(** Broadcasting: a number (or an array of one entry) combines with every
    entry of the other operand; two arrays combine entry by entry. *)
Definition binary_evaluate (op : binop) (l r : value) : result value :=
  match l, r with
  | Num a, Num b => Num <$> binary_scalar op a b
  | Num a, Arr bs => Arr <$> mapM (binary_scalar op a) bs
  | Arr xs, Num b => Arr <$> mapM (fun a => binary_scalar op a b) xs
  | Arr xs, Arr bs =>
      if (length xs =? length bs)%nat
      then Arr <$> mapM (fun ab => binary_scalar op ab.1 ab.2) (zip xs bs)
      else
        match xs, bs with
        | [a], _ => Arr <$> mapM (binary_scalar op a) bs
        | _, [b] => Arr <$> mapM (fun a => binary_scalar op a b) xs
        | _, _ => Raise (ShapeError "operands could not be broadcast together")
        end
  end.

Definition unary_evaluate (op : unop) (c : value) : result value :=
  match c with
  | Num a => Num <$> unary_scalar op a
  | Arr xs => Arr <$> mapM (unary_scalar op) xs
  end.

(** [y[first:last]] *)
Definition slice (y : list Qc) (first last : nat) : list Qc :=
  take (last - first) (drop first y).

Definition not_implemented {A} (kind : string) : result A :=
  Raise (NotImplementedError
           ("method self.evaluate() not implemented for symbol of type " +:+ kind)).

Fixpoint evaluate (s : Symbol) (t : Qc) (y : list Qc) : result value :=
  match s with
  | Parameter' _ => not_implemented "Parameter"
  | FunctionParameter _ _ => not_implemented "FunctionParameter"
  | Variable' _ _ => not_implemented "Variable"
  | StateVector a b => Ok (Arr (slice y a b))
  | Scalar q => Ok (Num q)
  | Time => Ok (Num t)
  | BinaryOperator op l r =>
      vl ← evaluate l t y;
      vr ← evaluate r t y;
      binary_evaluate op vl vr
  | UnaryOperator op c =>
      vc ← evaluate c t y;
      unary_evaluate op vc
  | SpatialOperator _ _ => not_implemented "SpatialOperator"
  | Broadcast _ _ => not_implemented "Broadcast"
  | Concatenation cs _ =>
      Arr <$>
      (fix go (l : list Symbol) : result (list Qc) :=
         match l with
         | [] => Ok []
         | c :: l' =>
             vc ← evaluate c t y;
             rest ← go l';
             Ok (as_array vc ++ rest)
         end) cs
  end.

(** The loop of [Concatenation.evaluate], named for the proofs. *)
Fixpoint evaluate_children (cs : list Symbol) (t : Qc) (y : list Qc)
  : result (list Qc) :=
  match cs with
  | [] => Ok []
  | c :: l' =>
      vc ← evaluate c t y;
      rest ← evaluate_children l' t y;
      Ok (as_array vc ++ rest)
  end.

End Evaluator.

(** ** Evaluation with [known_evals]

    Modelled from the spec: the cached path of [Symbol.evaluate] is not among
    the sources; it is written here from section 4.1. [known_evals] maps the
    structural id of a node to its value. The id is the canonical form of the
    subtree, so two nodes have the same id exactly when they are the same
    tree; the tree itself stands for its id. The call returns the value
    together with the updated mapping, as [evaluate_model] unpacks it. *)

(** Equality of ids: structural equality of the trees. *)
Fixpoint Symbol_eqb (a b : Symbol) {struct a} : bool :=
  match a, b with
  | Parameter' n, Parameter' m => bool_decide (n = m)
  | FunctionParameter n xs, FunctionParameter m ys =>
      bool_decide (n = m) &&
      (fix go (l1 l2 : list Symbol) : bool :=
         match l1, l2 with
         | [], [] => true
         | x :: l1', y :: l2' => Symbol_eqb x y && go l1' l2'
         | _, _ => false
         end) xs ys
  | Variable' n d, Variable' m e => bool_decide (n = m) && bool_decide (d = e)
  | StateVector a1 b1, StateVector a2 b2 => (a1 =? a2)%nat && (b1 =? b2)%nat
  | Scalar p, Scalar q => bool_decide (p = q)
  | Time, Time => true
  | BinaryOperator o1 l1 r1, BinaryOperator o2 l2 r2 =>
      match o1, o2 with
      | Addition, Addition | Subtraction, Subtraction
      | Multiplication, Multiplication | Division, Division
      | Power, Power => true
      | _, _ => false
      end && Symbol_eqb l1 l2 && Symbol_eqb r1 r2
  | UnaryOperator o1 c1, UnaryOperator o2 c2 =>
      match o1, o2 with
      | Negate, Negate | AbsoluteValue, AbsoluteValue => true
      | Function f, Function g => bool_decide (f = g)
      | _, _ => false
      end && Symbol_eqb c1 c2
  | SpatialOperator k1 c1, SpatialOperator k2 c2 =>
      match k1, k2 with
      | Grad, Grad | Div, Div => true
      | _, _ => false
      end && Symbol_eqb c1 c2
  | Broadcast c1 d1, Broadcast c2 d2 => Symbol_eqb c1 c2 && bool_decide (d1 = d2)
  | Concatenation xs d1, Concatenation ys d2 =>
      (fix go (l1 l2 : list Symbol) : bool :=
         match l1, l2 with
         | [], [] => true
         | x :: l1', y :: l2' => Symbol_eqb x y && go l1' l2'
         | _, _ => false
         end) xs ys && bool_decide (d1 = d2)
  | _, _ => false
  end.

(** [known_evals]: a dict from id to value, the newest entry first; an id is
    stored once, on the miss that computes its value. *)
Definition known_evals : Type := list (Symbol * value).

Fixpoint known_lookup (k : known_evals) (s : Symbol) : option value :=
  match k with
  | [] => None
  | (s', v) :: k' => if Symbol_eqb s' s then Some v else known_lookup k' s
  end.

Section CachedEvaluator.

Variable np_function : string -> Qc -> result Qc.
Variable np_power : Qc -> Qc -> Qc.

(** On a hit the stored value is returned and the subtree is not entered; on
    a miss the children are evaluated through the same mapping, the node's
    operator is applied and the value is stored. An exception leaves the
    entries made so far in the mapping. *)
Fixpoint evaluate_known (s : Symbol) (t : Qc) (y : list Qc) (known : known_evals)
  : result value * known_evals :=
  match known_lookup known s with
  | Some v => (Ok v, known)
  | None =>
      let store (r : result value) (k : known_evals) :=
        match r with
        | Ok v => (Ok v, (s, v) :: k)
        | Raise e => (Raise e, k)
        end in
      match s with
      | BinaryOperator op l r =>
          match evaluate_known l t y known with
          | (Ok vl, k1) =>
              match evaluate_known r t y k1 with
              | (Ok vr, k2) => store (binary_evaluate np_power op vl vr) k2
              | (Raise e, k2) => (Raise e, k2)
              end
          | (Raise e, k1) => (Raise e, k1)
          end
      | UnaryOperator op c =>
          match evaluate_known c t y known with
          | (Ok vc, k1) => store (unary_evaluate np_function op vc) k1
          | (Raise e, k1) => (Raise e, k1)
          end
      | Concatenation cs _ =>
          match
            (fix go (l : list Symbol) (k : known_evals)
               : result (list Qc) * known_evals :=
               match l with
               | [] => (Ok [], k)
               | c :: l' =>
                   match evaluate_known c t y k with
                   | (Ok vc, k1) =>
                       match go l' k1 with
                       | (Ok rest, k2) => (Ok (as_array vc ++ rest), k2)
                       | (Raise e, k2) => (Raise e, k2)
                       end
                   | (Raise e, k1) => (Raise e, k1)
                   end
               end) cs known
          with
          | (Ok a, k1) => store (Ok (Arr a)) k1
          | (Raise e, k1) => (Raise e, k1)
          end
      | _ => store (evaluate np_function np_power s t y) known
      end
  end.

End CachedEvaluator.

(** ** The model container

    The four mappings are dicts keyed by symbols; they are association lists
    in insertion order, since a pass visits the entries in that order. A
    boundary condition is a dict from side to a pair of a symbol and the kind
    of condition, a string in the sources. *)

Definition equations : Type := list (Symbol * Symbol).
Definition boundary : Type := list (string * (Symbol * string)).

Record Model : Type := mkModel {
  rhs : equations;
  algebraic : equations;
  initial_conditions : equations;
  boundary_conditions : list (Symbol * boundary)
}.

(** The values of [M.boundary_conditions], side by side. *)
Definition boundary_values (M : Model) : list Symbol :=
  flat_map (fun kb => map (fun sb => sb.2.1) kb.2) (boundary_conditions M).

(** ** ParameterValues: the substitution pass

    Modelled from the spec: [ParameterValues] is not among the sources; it is
    written here from sections 3 and 4.3. A value is a number or a callable
    that takes the (processed) children and returns a new subtree; a
    [Parameter] becomes the [Scalar] of its number, a [FunctionParameter]
    becomes the result of calling its callable on its processed children; a
    name that is not in the mapping raises [KeyError]. *)

Inductive pvalue : Type :=
| PNumber (q : Qc)
| PCallable (f : list Symbol -> result Symbol).

Fixpoint process_symbol (P : gmap string pvalue) (s : Symbol) : result Symbol :=
  let process_children :=
    fix go (l : list Symbol) : result (list Symbol) :=
      match l with
      | [] => Ok []
      | c :: l' =>
          c' ← process_symbol P c;
          rest ← go l';
          Ok (c' :: rest)
      end in
  match s with
  | Parameter' n =>
      match P !! n with
      | Some (PNumber q) => Ok (Scalar q)
      | Some (PCallable _) => Raise (TypeError "Scalar of a callable")
      | None => Raise (KeyError n)
      end
  | FunctionParameter n args =>
      args' ← process_children args;
      match P !! n with
      | Some (PCallable f) => f args'
      | Some (PNumber _) => Raise (TypeError "object is not callable")
      | None => Raise (KeyError n)
      end
  | BinaryOperator op l r =>
      l' ← process_symbol P l;
      r' ← process_symbol P r;
      Ok (BinaryOperator op l' r')
  | UnaryOperator op c => UnaryOperator op <$> process_symbol P c
  | SpatialOperator k c => SpatialOperator k <$> process_symbol P c
  | Broadcast c d => (fun c' => Broadcast c' d) <$> process_symbol P c
  | Concatenation cs d =>
      (fun cs' => Concatenation cs' d) <$> process_children cs
  | _ => Ok s
  end.

(** The loop over children, named for the proofs. *)
Fixpoint process_symbols (P : gmap string pvalue) (l : list Symbol)
  : result (list Symbol) :=
  match l with
  | [] => Ok []
  | c :: l' =>
      c' ← process_symbol P c;
      rest ← process_symbols P l';
      Ok (c' :: rest)
  end.

Fixpoint process_equations (P : gmap string pvalue) (d : equations)
  : result equations :=
  match d with
  | [] => Ok []
  | (k, eqn) :: d' =>
      eqn' ← process_symbol P eqn;
      rest ← process_equations P d';
      Ok ((k, eqn') :: rest)
  end.

Fixpoint process_boundary (P : gmap string pvalue) (b : boundary)
  : result boundary :=
  match b with
  | [] => Ok []
  | (side, (eqn, kind)) :: b' =>
      eqn' ← process_symbol P eqn;
      rest ← process_boundary P b';
      Ok ((side, (eqn', kind)) :: rest)
  end.

Fixpoint process_boundary_conditions (P : gmap string pvalue)
  (bcs : list (Symbol * boundary)) : result (list (Symbol * boundary)) :=
  match bcs with
  | [] => Ok []
  | (k, b) :: bcs' =>
      b' ← process_boundary P b;
      rest ← process_boundary_conditions P bcs';
      Ok ((k, b') :: rest)
  end.

Definition process_model (P : gmap string pvalue) (M : Model) : result Model :=
  rhs' ← process_equations P (rhs M);
  algebraic' ← process_equations P (algebraic M);
  initial' ← process_equations P (initial_conditions M);
  boundary' ← process_boundary_conditions P (boundary_conditions M);
  Ok (mkModel rhs' algebraic' initial' boundary').

(** [P] resolves the names occurring in a tree: a [Parameter] name has a
    number; a [FunctionParameter] name has a callable which, given as many
    children as the node has, none of them holding a parameter, returns a
    subtree that holds none. *)
Definition parameter_free (s : Symbol) : Prop := has_parameter s = false.

Definition resolved_callable (f : list Symbol -> result Symbol) (arity : nat)
  : Prop :=
  forall args, length args = arity -> Forall parameter_free args ->
               exists s, f args = Ok s /\ parameter_free s.

Fixpoint resolves (P : gmap string pvalue) (s : Symbol) : Prop :=
  match s with
  | Parameter' n => exists q, P !! n = Some (PNumber q)
  | FunctionParameter n args =>
      (exists f, P !! n = Some (PCallable f) /\
                 resolved_callable f (length args)) /\
      (fix go (l : list Symbol) : Prop :=
         match l with
         | [] => True
         | c :: l' => resolves P c /\ go l'
         end) args
  | BinaryOperator _ l r => resolves P l /\ resolves P r
  | UnaryOperator _ c | SpatialOperator _ c | Broadcast c _ => resolves P c
  | Concatenation cs _ =>
      (fix go (l : list Symbol) : Prop :=
         match l with
         | [] => True
         | c :: l' => resolves P c /\ go l'
         end) cs
  | _ => True
  end.

Definition resolves_model (P : gmap string pvalue) (M : Model) : Prop :=
  Forall (fun kv => resolves P kv.2) (rhs M) /\
  Forall (fun kv => resolves P kv.2) (algebraic M) /\
  Forall (fun kv => resolves P kv.2) (initial_conditions M) /\
  Forall (resolves P) (boundary_values M).

(** The scan at the end of [test_processing_parameters], over the values of
    [{**rhs, **algebraic}]: an entry of [algebraic] replaces the entry of
    [rhs] with the same key, in place; a new key goes to the end. *)
Fixpoint dict_set {V} (d : list (Symbol * V)) (k : Symbol) (v : V)
  : list (Symbol * V) :=
  match d with
  | [] => [(k, v)]
  | (k', v') :: d' =>
      if Symbol_eqb k' k then (k', v) :: d' else (k', v') :: dict_set d' k v
  end.

Definition dict_merge {V} (a b : list (Symbol * V)) : list (Symbol * V) :=
  fold_left (fun d kv => dict_set d kv.1 kv.2) b a.

Definition scan_processed (M : Model) : result unit :=
  if existsb (fun kv => has_parameter kv.2) (dict_merge (rhs M) (algebraic M))
  then Raise (TypeError "Not all Parameter and FunctionParameter objects processed")
  else Ok tt.

(** ** Discretisation: the allocation of the state vector

    Modelled from the spec: [Discretisation] is not among the sources; it is
    written here from sections 3 and 4.4. One pass over the equations lists
    the distinct variables in the order of first encounter; each receives the
    next contiguous range, as long as the product of the node counts of its
    domains; every occurrence of the variable becomes the [StateVector] of
    its range. The spatial method and the broadcast operator belong to the
    mesh collaborators and are taken as parameters. *)

Definition is_variable (s : Symbol) : bool :=
  match s with
  | Variable' _ _ => true
  | _ => false
  end.

Fixpoint first_encounters (seen l : list Symbol) : list Symbol :=
  match l with
  | [] => []
  | x :: l' =>
      if existsb (Symbol_eqb x) seen then first_encounters seen l'
      else x :: first_encounters (x :: seen) l'
  end.

Definition equation_nodes (d : equations) : list Symbol :=
  flat_map (fun kv => pre_order kv.1 ++ pre_order kv.2) d.

Definition model_variables (M : Model) : list Symbol :=
  first_encounters []
    (List.filter is_variable
       (equation_nodes (rhs M) ++ equation_nodes (algebraic M) ++
        equation_nodes (initial_conditions M) ++
        flat_map pre_order (map fst (boundary_conditions M)) ++
        flat_map pre_order (boundary_values M))).

Definition in_range (r : nat * nat) (i : nat) : bool :=
  (r.1 <=? i)%nat && (i <? r.2)%nat.

Definition range_size (r : nat * nat) : nat := r.2 - r.1.

(** How many of the ranges hold index [i]. *)
Definition coverage (ranges : list (nat * nat)) (i : nat) : nat :=
  length (List.filter (fun r => in_range r i) ranges).

Definition total_state_size (ranges : list (nat * nat)) : nat :=
  sum_list (map range_size ranges).

(** No index lies in two of the ranges. *)
Definition pairwise_disjoint (ranges : list (nat * nat)) : Prop :=
  forall j k r1 r2 i,
    j <> k -> ranges !! j = Some r1 -> ranges !! k = Some r2 ->
    ~ (in_range r1 i = true /\ in_range r2 i = true).

(** The union of the ranges is the interval from 0 to [n]. *)
Definition covers_exactly (ranges : list (nat * nat)) (n : nat) : Prop :=
  forall i, i < n <-> exists r, r ∈ ranges /\ in_range r i = true.

(** The tiling rule of [check_well_posedness(post_discretisation=True)]:
    every index below the total state size is in exactly one range; an index
    in none is a missing variable, an index in two is a duplicate state. *)
Fixpoint check_indices (ranges : list (nat * nat)) (indices : list nat)
  : result unit :=
  match indices with
  | [] => Ok tt
  | i :: rest =>
      match coverage ranges i with
      | 0 => Raise (ModelError "Missing variable")
      | 1 => check_indices ranges rest
      | _ => Raise (ModelError "duplicate state")
      end
  end.

Definition check_state_vectors (ranges : list (nat * nat)) : result unit :=
  check_indices ranges (seq 0 (total_state_size ranges)).

Section Discretisation.

(** The mesh: the node count of each domain. *)
Variable npts : string -> nat.
(** The spatial method: the discrete operator for a lowered child. *)
Variable spatial_method : spatial_kind -> Symbol -> Symbol.
Variable broadcast_method : list string -> Symbol -> Symbol.

Definition discretised_size (v : Symbol) : nat :=
  match v with
  | Variable' _ domain => foldr (fun d n => npts d * n) 1 domain
  | _ => 0
  end.

Fixpoint set_variable_slices (start : nat) (vars : list Symbol)
  : list (Symbol * (nat * nat)) :=
  match vars with
  | [] => []
  | v :: vs =>
      let last := start + discretised_size v in
      (v, (start, last)) :: set_variable_slices last vs
  end.

Fixpoint y_slice (slices : list (Symbol * (nat * nat))) (v : Symbol)
  : option (nat * nat) :=
  match slices with
  | [] => None
  | (v', r) :: rest => if Symbol_eqb v' v then Some r else y_slice rest v
  end.

Fixpoint discretise_symbol (slices : list (Symbol * (nat * nat))) (s : Symbol)
  : Symbol :=
  match s with
  | Variable' _ _ =>
      match y_slice slices s with
      | Some (a, b) => StateVector a b
      | None => s
      end
  | FunctionParameter n args =>
      FunctionParameter n (map (discretise_symbol slices) args)
  | BinaryOperator op l r =>
      BinaryOperator op (discretise_symbol slices l) (discretise_symbol slices r)
  | UnaryOperator op c => UnaryOperator op (discretise_symbol slices c)
  | SpatialOperator k c => spatial_method k (discretise_symbol slices c)
  | Broadcast c d => broadcast_method d (discretise_symbol slices c)
  | Concatenation cs d => Concatenation (map (discretise_symbol slices) cs) d
  | _ => s
  end.

Definition discretise_equations (slices : list (Symbol * (nat * nat)))
  (d : equations) : equations :=
  map (fun kv => (discretise_symbol slices kv.1, discretise_symbol slices kv.2)) d.

(** [Discretisation.process_model]: the allocation table and the lowered
    model. *)
Definition discretise_model (M : Model)
  : list (Symbol * (nat * nat)) * Model :=
  let slices := set_variable_slices 0 (model_variables M) in
  (slices,
   mkModel (discretise_equations slices (rhs M))
           (discretise_equations slices (algebraic M))
           (discretise_equations slices (initial_conditions M))
           (map (fun kb =>
                   (discretise_symbol slices kb.1,
                    map (fun sb => (sb.1, (discretise_symbol slices sb.2.1, sb.2.2)))
                        kb.2))
                (boundary_conditions M))).

(** The ranges that [process_model] allocates for a model. *)
Definition allocated_ranges (M : Model) : list (nat * nat) :=
  map snd (discretise_model M).1.

End Discretisation.

(** ** Python arithmetic on symbols

    [a * b] on symbols builds the operator node; a Python number next to a
    symbol is wrapped in a [Scalar]. Decimal literals are exact rationals. *)

Definition decimal (n : Z) (d : positive) : Qc := Q2Qc (n # d).

Declare Scope symbol_scope.
Delimit Scope symbol_scope with sym.
Notation "a + b" := (BinaryOperator Addition a b) : symbol_scope.
Notation "a - b" := (BinaryOperator Subtraction a b) : symbol_scope.
Notation "a * b" := (BinaryOperator Multiplication a b) : symbol_scope.
Notation "a / b" := (BinaryOperator Division a b) : symbol_scope.
Notation "- a" := (UnaryOperator Negate a) : symbol_scope.

(** [pybamm.exp], [pybamm.grad], [pybamm.div] *)
Definition exp (x : Symbol) : Symbol := UnaryOperator (Function "exp") x.
Definition grad (x : Symbol) : Symbol := SpatialOperator Grad x.
Definition div (x : Symbol) : Symbol := SpatialOperator Div x.

(** ** The parameter functions of the Chu2020 set
    (graphite_elyte_exchange_current_density_Chu2020.py and
    electrolyte_conductivity_Chu2020.py) *)

Section Chu2020.

(** [pybamm.constants.R], the molar gas constant; its definition is outside
    the two files. *)
Variable R : Symbol.

Definition graphite_elyte_exchange_current_density_Chu2020
  (c_e c_s_surf T : Symbol) : Symbol :=
  let i0_ref := decimal 1431 100 in
  let E_i0 := decimal 3081 100 in
  let arrhenius :=
    exp (Scalar E_i0 / R *
         (Scalar (1 / decimal 29815 100)%Qc - Scalar 1%Qc / T))%sym in
  (Scalar i0_ref * arrhenius)%sym.

Definition electrolyte_conductivity_Chu2020 (T : Symbol) : Symbol :=
  let sigma_e := decimal 22 1000 in
  let a_k_e := decimal 2 1000 in
  let lin := (Scalar a_k_e * (T - Scalar (decimal 29815 100)))%sym in
  (Scalar sigma_e + lin)%sym.


End Chu2020.

(** ** The electrolyte diffusion submodel (full_diffusion.py) *)

(** [variables]: the dict from variable name to symbol that the submodels
    share. [variables[name]] raises [KeyError] on a missing name. *)
Definition getitem {V} (d : gmap string V) (key : string) : result V :=
  match d !! key with
  | Some v => Ok v
  | None => Raise (KeyError key)
  end.

(** What the submodel reads from [self.param]. *)
Record DiffusionParameters : Type := {
  D_e : Symbol -> Symbol -> Symbol;
  t_plus : Symbol -> Symbol -> Symbol;
  C_e : Symbol;
  gamma_e : Symbol;
  epsilon_init : Symbol;
  c_e_init : Symbol
}.

(** The helpers that [Full] inherits from [BaseElectrolyteDiffusion] and the
    standard variables; their definitions are outside the file. *)
Record BaseElectrolyteDiffusion : Type := {
  eps_c_e_n : Symbol;
  eps_c_e_s : Symbol;
  eps_c_e_p : Symbol;
  _get_standard_porosity_times_concentration_variables :
    Symbol -> Symbol -> Symbol -> gmap string Symbol;
  _get_standard_concentration_variables :
    Symbol -> Symbol -> Symbol -> gmap string Symbol;
  _get_standard_flux_variables : Symbol -> gmap string Symbol;
  _get_total_concentration_electrolyte : Symbol -> Symbol -> gmap string Symbol
}.

(** The state of a submodel object that the [set_] methods assign. *)
Record SubmodelState : Type := mkSubmodel {
  sub_rhs : equations;
  sub_algebraic : equations;
  sub_initial_conditions : equations;
  sub_boundary_conditions : list (Symbol * boundary)
}.

(** [variables.update(d)]: the entries of [d] replace those of [variables]. *)
Definition dict_update (variables d : gmap string Symbol) : gmap string Symbol :=
  d ∪ variables.

Module Full.
Section Full.

Variable param : DiffusionParameters.
Variable base : BaseElectrolyteDiffusion.

Definition get_fundamental_variables : gmap string Symbol :=
  _get_standard_porosity_times_concentration_variables base
    (eps_c_e_n base) (eps_c_e_s base) (eps_c_e_p base).

Definition get_coupled_variables (variables : gmap string Symbol)
  : result (gmap string Symbol) :=
  eps_n ← getitem variables "Negative electrode porosity";
  eps_s ← getitem variables "Separator porosity";
  eps_p ← getitem variables "Positive electrode porosity";
  eps_c_e_n ← getitem variables "Negative electrode porosity times concentration";
  eps_c_e_s ← getitem variables "Separator porosity times concentration";
  eps_c_e_p ← getitem variables "Positive electrode porosity times concentration";
  let c_e_n := (eps_c_e_n / eps_n)%sym in
  let c_e_s := (eps_c_e_s / eps_s)%sym in
  let c_e_p := (eps_c_e_p / eps_p)%sym in
  let variables :=
    dict_update variables
      (_get_standard_concentration_variables base c_e_n c_e_s c_e_p) in
  eps ← getitem variables "Porosity";
  c_e ← getitem variables "Electrolyte concentration";
  tor ← getitem variables "Electrolyte tortuosity";
  i_e ← getitem variables "Electrolyte current density";
  v_box ← getitem variables "Volume-averaged velocity";
  T ← getitem variables "Cell temperature";
  let N_e_diffusion := (- tor * D_e param c_e T * grad c_e)%sym in
  let N_e_migration := (C_e param * t_plus param c_e T * i_e / gamma_e param)%sym in
  let N_e_convection := (C_e param * c_e * v_box)%sym in
  let N_e := (N_e_diffusion + N_e_migration + N_e_convection)%sym in
  let variables := dict_update variables (_get_standard_flux_variables base N_e) in
  let variables :=
    dict_update variables (_get_total_concentration_electrolyte base c_e eps) in
  Ok variables.

Definition set_rhs (self : SubmodelState) (variables : gmap string Symbol)
  : result SubmodelState :=
  eps_c_e ← getitem variables "Porosity times concentration";
  c_e ← getitem variables "Electrolyte concentration";
  N_e ← getitem variables "Electrolyte flux";
  div_Vbox ← getitem variables "Transverse volume-averaged acceleration";
  sum_s_j ← getitem variables "Sum of electrolyte reaction source terms";
  let source_terms := (sum_s_j / gamma_e param)%sym in
  Ok (mkSubmodel
        [(eps_c_e, (- div N_e / C_e param + source_terms - c_e * div_Vbox)%sym)]
        (sub_algebraic self)
        (sub_initial_conditions self)
        (sub_boundary_conditions self)).

Definition set_initial_conditions (self : SubmodelState)
  (variables : gmap string Symbol) : result SubmodelState :=
  eps_c_e ← getitem variables "Porosity times concentration";
  Ok (mkSubmodel
        (sub_rhs self)
        (sub_algebraic self)
        [(eps_c_e, (epsilon_init param * c_e_init param)%sym)]
        (sub_boundary_conditions self)).


End Full.
End Full.

(** ** The model test harness (standard_model_tests.py) *)

(** Python's truth value of an object: what [x or y] tests. [None] is false,
    an empty dict is false; for any other class it is what the class
    defines. *)
Class Truthy (A : Type) : Type := truth : A -> bool.

#[global] Instance Truthy_gmap {V} : Truthy (gmap string V) :=
  fun d => negb (bool_decide (dom d = ∅)).

#[global] Instance Truthy_list {A} : Truthy (list A) :=
  fun l => match l with [] => false | _ => true end.

(** An argument that may be [None]. *)
Definition py_truth {A} `{Truthy A} (x : option A) : bool :=
  match x with
  | None => false
  | Some a => truth a
  end.

(** [x or y]: [x] when it is true, else [y]. *)
Definition py_or {A} `{Truthy A} (x : option A) (y : A) : A :=
  match x with
  | Some a => if truth a then a else y
  | None => y
  end.

Definition width_parameters : list string :=
  [ "Negative electrode width [m]";
    "Separator width [m]";
    "Positive electrode width [m]" ].

Section StandardModelTest.

(** The classes of the collaborators: the model, the parameter values (a
    mapping from name to [V]), the geometry, the submesh types, the points
    per variable, the spatial methods, the solver, the mesh and the
    discretisation; each class of an argument comes with its truth value. *)
Context {ModelT V GeometryT SubmeshT PtsT MethodsT SolverT MeshT DiscT : Type}.
Context `{EqDecision V}.
Context `{Truthy (gmap string V), Truthy GeometryT, Truthy SubmeshT, Truthy PtsT,
          Truthy MethodsT, Truthy SolverT}.

(** The defaults of a model. *)
Variable default_parameter_values : ModelT -> gmap string V.
Variable default_geometry : ModelT -> GeometryT.
Variable default_submesh_types : ModelT -> SubmeshT.
Variable default_var_pts : ModelT -> PtsT.
Variable default_spatial_methods : ModelT -> MethodsT.
Variable default_solver : ModelT -> SolverT.

(** [parameter_values.process_geometry(geometry)] updates the geometry in
    place; [pybamm.Mesh] and [pybamm.Discretisation] are constructors. *)
Variable process_geometry : gmap string V -> GeometryT -> result GeometryT.
Variable Mesh : GeometryT -> SubmeshT -> PtsT -> result MeshT.
Variable Discretisation : MeshT -> MethodsT -> result DiscT.

(** [param.update_model(model, disc)] and [model.check_well_posedness()]. *)
Variable update_model : gmap string V -> ModelT -> DiscT -> result ModelT.
Variable check_well_posedness : ModelT -> result unit.

Record StandardModelTest : Type := mkStandardModelTest {
  self_model : ModelT;
  self_parameter_values : gmap string V;
  self_solver : SolverT;
  self_disc : DiscT;
  self_param : option (gmap string V)
}.

(** [StandardModelTest.__init__]. The locals are returned next to the object,
    so that the choice made for each of them can be stated. *)
Definition init_locals (model : ModelT)
  (parameter_values : option (gmap string V)) (geometry : option GeometryT)
  (submesh_types : option SubmeshT) (var_pts : option PtsT)
  (spatial_methods : option MethodsT) (solver : option SolverT)
  : gmap string V * GeometryT * SubmeshT * PtsT * MethodsT * SolverT :=
  let parameter_values := py_or parameter_values (default_parameter_values model) in
  let geometry := py_or geometry (default_geometry model) in
  let submesh_types := py_or submesh_types (default_submesh_types model) in
  let var_pts := py_or var_pts (default_var_pts model) in
  let spatial_methods := py_or spatial_methods (default_spatial_methods model) in
  let solver := py_or solver (default_solver model) in
  (parameter_values, geometry, submesh_types, var_pts, spatial_methods, solver).

Definition init (model : ModelT)
  (parameter_values : option (gmap string V)) (geometry : option GeometryT)
  (submesh_types : option SubmeshT) (var_pts : option PtsT)
  (spatial_methods : option MethodsT) (solver : option SolverT)
  : result StandardModelTest :=
  let '(parameter_values, geometry, submesh_types, var_pts, spatial_methods, solver) :=
    init_locals model parameter_values geometry submesh_types var_pts
                spatial_methods solver in
  geometry ← process_geometry parameter_values geometry;
  mesh ← Mesh geometry submesh_types var_pts;
  disc ← Discretisation mesh spatial_methods;
  Ok (mkStandardModelTest model parameter_values solver disc None).

(** The list that [test_update_parameters] hands to [any]: for each width,
    [length in param.keys() and param[length] != self.parameter_values[length]].
    The list is built in full before [any] looks at it, so a width that
    [param] has and the original lacks raises [KeyError] whatever the other
    entries are. *)
Definition width_changed (param original : gmap string V) (length : string)
  : result bool :=
  match param !! length with
  | None => Ok false
  | Some v =>
      v0 ← getitem original length;
      Ok (negb (bool_decide (v = v0)))
  end.

Definition test_update_parameters (self : StandardModelTest)
  (param : gmap string V) : result StandardModelTest :=
  changed ← mapM (width_changed param (self_parameter_values self)) width_parameters;
  if existsb (fun b : bool => b) changed
  then Raise (ValueError
         "geometry has changed, the orginal model needs to be re-discretised")
  else
    model ← update_model param (self_model self) (self_disc self);
    _ ← check_well_posedness model;
    Ok (mkStandardModelTest model (self_parameter_values self) (self_solver self)
          (self_disc self) (Some param)).

End StandardModelTest.

(** [OptimisationsTest.evaluate_model]: both concatenated equations are
    evaluated at [t = 0] and [y = concatenated_initial_conditions], after
    [simplify] and through [known_evals = {}] when asked, and the results are
    joined. [np.concatenate] refuses a zero-dimensional value. *)
Section OptimisationsTest.

Variable np_function : string -> Qc -> result Qc.
Variable np_power : Qc -> Qc -> Qc.
(** [Symbol.simplify], outside the sources. *)
Variable simplify : Symbol -> Symbol.

Definition np_concatenate (acc : list Qc) (v : value) : result (list Qc) :=
  match v with
  | Arr a => Ok (acc ++ a)
  | Num _ => Raise (ValueError "zero-dimensional arrays cannot be concatenated")
  end.

Fixpoint evaluate_equations (eqns : list Symbol) (y : list Qc)
  (use_simplify use_known_evals : bool) (acc : list Qc) : result (list Qc) :=
  match eqns with
  | [] => Ok acc
  | eqn :: rest =>
      let eqn := if use_simplify then simplify eqn else eqn in
      eqn_eval ←
        (if use_known_evals
         then (evaluate_known np_function np_power eqn 0%Qc y []).1
         else evaluate np_function np_power eqn 0%Qc y);
      acc' ← np_concatenate acc eqn_eval;
      evaluate_equations rest y use_simplify use_known_evals acc'
  end.

Definition evaluate_model (concatenated_rhs concatenated_algebraic : Symbol)
  (concatenated_initial_conditions : list Qc)
  (use_simplify use_known_evals : bool) : result (list Qc) :=
  evaluate_equations [concatenated_rhs; concatenated_algebraic]
    concatenated_initial_conditions use_simplify use_known_evals [].

End OptimisationsTest.

(** ** Predicates of the statements and auxiliaries of the proofs *)


(** A width that the new set names differs from its original value. *)
Definition width_differs {V} (param original : gmap string V) (w : string) : Prop :=
  exists v v0, param !! w = Some v /\ original !! w = Some v0 /\ v <> v0.

(** What the substitution pass does on a tree whose names are resolved. *)
Definition processed_free (P : gmap string pvalue) (s : Symbol) : Prop :=
  resolves P s -> exists s', process_symbol P s = Ok s' /\ parameter_free s'.

(** One if the index is in the range, else zero. *)
Definition indicator (r : nat * nat) (i : nat) : nat :=
  if in_range r i then 1 else 0.

(** Ranges laid end to end from [start]. *)
Fixpoint consecutive (start : nat) (sizes : list nat) : list (nat * nat) :=
  match sizes with
  | [] => []
  | n :: ns => (start, start + n) :: consecutive (start + n) ns
  end.

Definition max_last (ranges : list (nat * nat)) : nat :=
  foldr (fun r m => Nat.max r.2 m) 0 ranges.

Section KnownEvalsInvariant.

Variable np_function : string -> Qc -> result Qc.
Variable np_power : Qc -> Qc -> Qc.
Variable t : Qc.
Variable y : list Qc.

(** Every stored value is the value of its node at [(t, y)]. *)
Definition consistent (k : known_evals) : Prop :=
  forall s v, known_lookup k s = Some v ->
              evaluate np_function np_power s t y = Ok v.

(** The loop of the cached [Concatenation], named for the proofs. *)
Fixpoint evaluate_known_children (cs : list Symbol) (k : known_evals)
  : result (list Qc) * known_evals :=
  match cs with
  | [] => (Ok [], k)
  | c :: l' =>
      match evaluate_known np_function np_power c t y k with
      | (Ok vc, k1) =>
          match evaluate_known_children l' k1 with
          | (Ok rest, k2) => (Ok (as_array vc ++ rest), k2)
          | (Raise e, k2) => (Raise e, k2)
          end
      | (Raise e, k1) => (Raise e, k1)
      end
  end.

Definition known_correct (s : Symbol) : Prop :=
  forall k, consistent k ->
            (evaluate_known np_function np_power s t y k).1 =
            evaluate np_function np_power s t y /\
            consistent (evaluate_known np_function np_power s t y k).2.

End KnownEvalsInvariant.

(** ** Concrete models and parameter sets *)



Definition example_model : Model :=
  let c_s := Variable' "Negative particle concentration" ["negative particle"] in
  let c_e := Variable' "Electrolyte concentration" ["separator"] in
  mkModel
    [(c_s, (Parameter' "Negative electrode diffusivity [m2.s-1]" *
            FunctionParameter "Negative electrode exchange-current density [A.m-2]"
              [c_e; c_s; Scalar (decimal 29815 100)])%sym)]
    [(c_e, (c_e - Scalar 1%Qc)%sym)]
    [(c_s, Parameter' "Negative electrode diffusivity [m2.s-1]")]
    [(c_e, [("left", (Parameter' "Negative electrode diffusivity [m2.s-1]", "Neumann"));
            ("right", (Scalar 0%Qc, "Neumann"))])].

(** Parameter sets for [test_update_parameters]: an original set with the
    negative electrode width only, one with the three widths, and an update
    that names two widths. *)
Definition example_original : gmap string Z :=
  <["Negative electrode width [m]" := 1%Z]> ∅.

Definition example_full_original : gmap string Z :=
  <["Negative electrode width [m]" := 1%Z]>
    (<["Separator width [m]" := 1%Z]>
       (<["Positive electrode width [m]" := 1%Z]> ∅)).

Definition example_update : gmap string Z :=
  <["Negative electrode width [m]" := 2%Z]>
    (<["Separator width [m]" := 3%Z]> ∅).

Definition example_test (original : gmap string Z)
  : @StandardModelTest unit Z unit unit :=
  mkStandardModelTest tt original tt tt None.

(** ** More of the source files *)





(** The three methods of [Full] that assign the equations of the submodel,
    and a sequence of calls on one object with one mapping. *)
Inductive setter : Type := SetRhs | SetInitialConditions | SetBoundaryConditions.



(** The variables of a tree, in pre-order. *)
Definition variables_of (s : Symbol) : list Symbol :=
  List.filter is_variable (pre_order s).

(** [d[k]] on a dict keyed by symbols. *)
Fixpoint dict_get {V} (d : list (Symbol * V)) (k : Symbol) : option V :=
  match d with
  | [] => None
  | (k', v) :: d' => if Symbol_eqb k' k then Some v else dict_get d' k
  end.

(** The first width that the new set names and the original set lacks: the
    comparison of [test_update_parameters] raises [KeyError] on it. *)
Definition first_unknown_width {V} (param original : gmap string V)
  : option string :=
  List.find (fun w => match param !! w, original !! w with
                      | Some _, None => true
                      | _, _ => false
                      end) width_parameters.

(** The other methods of [StandardModelTest]. The model exposes [rhs] and
    [algebraic]; what the methods call on the parameter values, the
    discretisation, the solver and the output tests is a parameter. *)
Section StandardModelTestMethods.

Context {V SolverT DiscT TEvalT : Type}.

(** [parameter_values.process_model(model)], [model.check_well_posedness
    (post_discretisation)], [disc.process_model(model)], [solver.solve(model,
    t_eval)], [tests.StandardOutputTests(...).test_all()],
    [isinstance(model, (LithiumIonBaseModel, LeadAcidBaseModel))] and
    [np.linspace(0, 1, 100)]. *)
Variable parameter_values_process_model : gmap string V -> Model -> result Model.
Variable check_well_posedness : bool -> Model -> result unit.
Variable disc_process_model : DiscT -> Model -> result Model.
Variable solver_solve : SolverT -> Model -> TEvalT -> result SolverT.
Variable standard_output_tests :
  Model -> gmap string V -> DiscT -> SolverT -> result unit.
Variable is_battery_model : Model -> bool.
Variable default_t_eval : TEvalT.

(** [if x is not None: self.x = x] *)
Definition overwrite {A} (given : option A) (current : A) : A :=
  match given with
  | Some a => a
  | None => current
  end.

Definition test_processing_parameters (self : @StandardModelTest Model V SolverT DiscT)
  (parameter_values : option (gmap string V))
  : result (@StandardModelTest Model V SolverT DiscT) :=
  let parameter_values := overwrite parameter_values (self_parameter_values self) in
  model ← parameter_values_process_model parameter_values (self_model self);
  _ ← check_well_posedness false model;
  _ ← scan_processed model;
  Ok (mkStandardModelTest model parameter_values (self_solver self)
        (self_disc self) (self_param self)).

Definition test_processing_disc (self : @StandardModelTest Model V SolverT DiscT)
  (disc : option DiscT) : result (@StandardModelTest Model V SolverT DiscT) :=
  let disc := overwrite disc (self_disc self) in
  model ← disc_process_model disc (self_model self);
  _ ← check_well_posedness true model;
  Ok (mkStandardModelTest model (self_parameter_values self) (self_solver self)
        disc (self_param self)).

Definition test_solving (self : @StandardModelTest Model V SolverT DiscT)
  (solver : option SolverT) (t_eval : option TEvalT)
  : result (@StandardModelTest Model V SolverT DiscT) :=
  let solver := overwrite solver (self_solver self) in
  let t_eval := overwrite t_eval default_t_eval in
  solver' ← solver_solve solver (self_model self) t_eval;
  Ok (mkStandardModelTest (self_model self) (self_parameter_values self) solver'
        (self_disc self) (self_param self)).

Definition test_outputs (self : @StandardModelTest Model V SolverT DiscT)
  : result unit :=
  standard_output_tests (self_model self) (self_parameter_values self)
    (self_disc self) (self_solver self).

Definition test_all (self : @StandardModelTest Model V SolverT DiscT)
  (param : option (gmap string V)) (disc : option DiscT)
  (solver : option SolverT) (t_eval : option TEvalT) (skip_output_tests : bool)
  : result (@StandardModelTest Model V SolverT DiscT) :=
  _ ← check_well_posedness false (self_model self);
  self ← test_processing_parameters self param;
  self ← test_processing_disc self disc;
  self ← test_solving self solver t_eval;
  if is_battery_model (self_model self) && negb skip_output_tests
  then _ ← test_outputs self; Ok self
  else Ok self.

End StandardModelTestMethods.

(** The last lines of [get_manufactured_solution_errors]: the dict from grid
    size to the dict from variable to result is turned into the dict from
    variable to the dict from grid size to result. The target is a
    [defaultdict(dict)]: [d[var][n] = x] makes the inner dict on the first
    use of [var]. Dicts are association lists in insertion order. (The part
    of the function before these lines stops in a debugger at every variable
    and is not modelled.) *)
Section Assoc.

Context {K V : Type} `{EqDecision K}.

(** [d.get(k)] and [d[k] = v]. *)
Fixpoint assoc_get (d : list (K * V)) (k : K) : option V :=
  match d with
  | [] => None
  | (k', v) :: d' => if decide (k' = k) then Some v else assoc_get d' k
  end.

Fixpoint assoc_set (d : list (K * V)) (k : K) (v : V) : list (K * V) :=
  match d with
  | [] => [(k, v)]
  | (k', v') :: d' =>
      if decide (k' = k) then (k', v) :: d' else (k', v') :: assoc_set d' k v
  end.

End Assoc.

Section ReverseNestedDict.

Context {N A : Type} `{EqDecision N}.

(** [approx_exact_ns_dict[var][n] = approx_exact] *)
Definition set_nested (acc : list (string * list (N * A))) (n : N)
  (var_x : string * A) : list (string * list (N * A)) :=
  assoc_set acc var_x.1
    (assoc_set (default [] (assoc_get acc var_x.1)) n var_x.2).

Definition reverse_nested_dict (ns_approx_exact_dict : list (N * list (string * A)))
  : list (string * list (N * A)) :=
  fold_left
    (fun acc n_all => fold_left (fun acc' var_x => set_nested acc' n_all.1 var_x)
                                n_all.2 acc)
    ns_approx_exact_dict [].

(** The entry for a variable and a grid size in each of the two dicts. *)
Definition lookup_by_n (d : list (N * list (string * A))) (n : N) (var : string)
  : option A :=
  inner ← assoc_get d n; assoc_get inner var.

Definition lookup_by_var (d : list (string * list (N * A))) (var : string) (n : N)
  : option A :=
  inner ← assoc_get d var; assoc_get inner n.

(** What holds of the dict under construction at every step. *)
Definition well_formed_nested (acc : list (string * list (N * A))) : Prop :=
  NoDup (map fst acc) /\
  Forall (fun e => e.2 <> [] /\ NoDup (map fst e.2)) acc.

End ReverseNestedDict.

(** A submodel object and a mapping of variables to run the methods of
    [Full] on: the helpers return the standard names, and the mapping holds
    what the other submodels supply. *)
Definition example_diffusion_parameters : DiffusionParameters :=
  {| D_e := fun c_e T => (Scalar 2%Qc * T)%sym;
     t_plus := fun c_e T => Scalar (decimal 4 10);
     C_e := Scalar (decimal 1 2);
     gamma_e := Scalar 1%Qc;
     epsilon_init := Scalar (decimal 3 10);
     c_e_init := Scalar 1%Qc |}.

Definition example_base : BaseElectrolyteDiffusion :=
  {| eps_c_e_n := Variable' "eps_c_e_n" ["negative electrode"];
     eps_c_e_s := Variable' "eps_c_e_s" ["separator"];
     eps_c_e_p := Variable' "eps_c_e_p" ["positive electrode"];
     _get_standard_porosity_times_concentration_variables := fun n s p =>
       <["Negative electrode porosity times concentration" := n]>
         (<["Separator porosity times concentration" := s]>
            (<["Positive electrode porosity times concentration" := p]>
               (<["Porosity times concentration" :=
                    Concatenation [n; s; p] []]> ∅)));
     _get_standard_concentration_variables := fun n s p =>
       <["Electrolyte concentration" := Concatenation [n; s; p] []]> ∅;
     _get_standard_flux_variables := fun N_e => <["Electrolyte flux" := N_e]> ∅;
     _get_total_concentration_electrolyte := fun c_e eps =>
       <["Total concentration in electrolyte [mol]" := (c_e * eps)%sym]> ∅ |}.

Definition example_variables : gmap string Symbol :=
  dict_update
    (<["Negative electrode porosity" := Scalar (decimal 3 10)]>
       (<["Separator porosity" := Scalar 1%Qc]>
          (<["Positive electrode porosity" := Scalar (decimal 3 10)]>
             (<["Porosity" := Scalar (decimal 3 10)]>
                (<["Electrolyte tortuosity" := Scalar (decimal 1 2)]>
                   (<["Electrolyte current density" := Time]>
                      (<["Volume-averaged velocity" := Scalar 0%Qc]>
                         (<["Cell temperature" := Scalar 1%Qc]>
                            (<["Transverse volume-averaged acceleration" := Scalar 0%Qc]>
                               (<["Sum of electrolyte reaction source terms" := Time]>
                                  ∅))))))))))
    (Full.get_fundamental_variables example_base).

(** The mapping after [get_coupled_variables]. *)
Definition example_coupled_variables : gmap string Symbol :=
  match Full.get_coupled_variables example_diffusion_parameters example_base
          example_variables with
  | Ok result => result
  | Raise _ => ∅
  end.

Definition example_submodel : SubmodelState :=
  mkSubmodel [(Time, Time)] [] [] [(Time, [("left", (Time, "Dirichlet"))])].

(** A model in which a variable has an equation in [rhs] and in [algebraic]:
    the parameter left in the first is hidden by the second. *)
Definition example_shadowed_model : Model :=
  let c := Variable' "c" ["separator"] in
  mkModel [(c, Parameter' "Diffusivity")] [(c, (c - Scalar 1%Qc)%sym)]
          [(c, Parameter' "Initial concentration")] [].

(** Results for three grid sizes, the last without any. *)
Definition example_ns_dict : list (nat * list (string * Z)) :=
  [ (2, [("c_e", 10%Z); ("phi_e", 20%Z)]);
    (4, [("c_e", 11%Z)]);
    (8, []) ].

(** A test object on the example model, with numbers for the solver and the
    discretisation. *)
Definition example_standard_test : @StandardModelTest Model Z nat nat :=
  mkStandardModelTest
    (mkModel [(Variable' "c" [], Scalar 1%Qc)] [] [(Variable' "c" [], Scalar 0%Qc)] [])
    example_full_original 1 2 None.

(* ===================================================================== *)
(** * Part 2: properties *)
(* ===================================================================== *)

(** ** The result monad *)

Lemma bind_Ok {A B} (f : A -> result B) (m : result A) (b : B) :
  m ≫= f = Ok b -> exists a, m = Ok a /\ f a = Ok b.
Proof. destruct m as [a|e]; simpl; [eauto | discriminate]. Qed.

(** ** The exchange-current density of the Chu2020 graphite anode *)

(** C8: the exchange-current density depends on the temperature only: calls
    with the same [T] and different concentrations return the same tree,
    which is [14.31 * exp((30.81 / R) * (1/298.15 - 1/T))]. *)
Theorem exchange_current_density_depends_on_T_only :
  forall (R c_e c_s_surf c_e' c_s_surf' T : Symbol),
    graphite_elyte_exchange_current_density_Chu2020 R c_e c_s_surf T =
    graphite_elyte_exchange_current_density_Chu2020 R c_e' c_s_surf' T /\
    graphite_elyte_exchange_current_density_Chu2020 R c_e c_s_surf T =
    BinaryOperator Multiplication (Scalar (decimal 1431 100))
      (UnaryOperator (Function "exp")
         (BinaryOperator Multiplication
            (BinaryOperator Division (Scalar (decimal 3081 100)) R)
            (BinaryOperator Subtraction
               (Scalar (1 / decimal 29815 100)%Qc)
               (BinaryOperator Division (Scalar 1%Qc) T)))).
Proof. intros. split; reflexivity. Qed.

(** ** The boundary conditions of the full electrolyte diffusion submodel *)





(** ** The model test harness *)

Section StandardModelTestProperties.

Context {ModelT V GeometryT SubmeshT PtsT MethodsT SolverT MeshT DiscT : Type}.
Context `{EqDecision V}.
Context `{Truthy (gmap string V), Truthy GeometryT, Truthy SubmeshT, Truthy PtsT,
          Truthy MethodsT, Truthy SolverT}.

Lemma py_or_falsy {A} `{Truthy A} (x : option A) (y : A) :
  py_truth x = false -> py_or x y = y.
Proof. destruct x as [a|]; simpl; [intros ->|]; reflexivity. Qed.

Lemma py_or_truthy {A} `{Truthy A} (x : option A) (y : A) :
  py_truth x = true -> x = Some (py_or x y).
Proof. destruct x as [a|]; simpl; [intros ->; reflexivity | discriminate]. Qed.

(** C9: each argument of [StandardModelTest.__init__] that is false as a
    truth value, [None] or not, is replaced by the default of the model; an
    argument that is true is used as given. The object is built from the
    values so chosen. *)
Theorem init_substitutes_default_for_falsy :
  forall (default_parameter_values : ModelT -> gmap string V)
         (default_geometry : ModelT -> GeometryT)
         (default_submesh_types : ModelT -> SubmeshT)
         (default_var_pts : ModelT -> PtsT)
         (default_spatial_methods : ModelT -> MethodsT)
         (default_solver : ModelT -> SolverT)
         (process_geometry : gmap string V -> GeometryT -> result GeometryT)
         (Mesh : GeometryT -> SubmeshT -> PtsT -> result MeshT)
         (Discretisation : MeshT -> MethodsT -> result DiscT)
         (model : ModelT)
         (parameter_values : option (gmap string V)) (geometry : option GeometryT)
         (submesh_types : option SubmeshT) (var_pts : option PtsT)
         (spatial_methods : option MethodsT) (solver : option SolverT),
  exists pv geo sub pts sm sol,
    init_locals default_parameter_values default_geometry default_submesh_types
      default_var_pts default_spatial_methods default_solver model
      parameter_values geometry submesh_types var_pts spatial_methods solver
    = (pv, geo, sub, pts, sm, sol) /\
    init default_parameter_values default_geometry default_submesh_types
      default_var_pts default_spatial_methods default_solver
      process_geometry Mesh Discretisation model
      parameter_values geometry submesh_types var_pts spatial_methods solver
    = (geometry' ← process_geometry pv geo;
       mesh ← Mesh geometry' sub pts;
       disc ← Discretisation mesh sm;
       Ok (mkStandardModelTest model pv sol disc None)) /\
    (py_truth parameter_values = false -> pv = default_parameter_values model) /\
    (py_truth geometry = false -> geo = default_geometry model) /\
    (py_truth submesh_types = false -> sub = default_submesh_types model) /\
    (py_truth var_pts = false -> pts = default_var_pts model) /\
    (py_truth spatial_methods = false -> sm = default_spatial_methods model) /\
    (py_truth solver = false -> sol = default_solver model) /\
    (py_truth parameter_values = true -> parameter_values = Some pv) /\
    (py_truth geometry = true -> geometry = Some geo) /\
    (py_truth submesh_types = true -> submesh_types = Some sub) /\
    (py_truth var_pts = true -> var_pts = Some pts) /\
    (py_truth spatial_methods = true -> spatial_methods = Some sm) /\
    (py_truth solver = true -> solver = Some sol).
Proof.
  intros. do 6 eexists. split; [reflexivity | ]. split; [reflexivity | ].
  repeat split; first [apply py_or_falsy | apply py_or_truthy].
Qed.

Lemma width_changed_spec (param original : gmap string V) (w : string) :
  (is_Some (param !! w) -> is_Some (original !! w)) ->
  exists b, width_changed param original w = Ok b /\
            (b = true <-> width_differs param original w).
Proof.
  intros Hdom. unfold width_changed, width_differs, getitem.
  destruct (param !! w) as [v|] eqn:Hp.
  - destruct (Hdom (ltac:(eauto))) as [v0 Ho]. rewrite Ho. simpl.
    eexists. split; [reflexivity | ].
    rewrite negb_true_iff, bool_decide_eq_false. split.
    + intros Hne. exists v, v0. auto.
    + intros (v' & v0' & [= <-] & [= <-] & Hne). exact Hne.
  - exists false. split; [reflexivity | ]. split; [discriminate | ].
    intros (v & v0 & Hv & _). discriminate Hv.
Qed.

Lemma any_width_changed_spec (param original : gmap string V) (ws : list string) :
  (forall w, w ∈ ws -> is_Some (param !! w) -> is_Some (original !! w)) ->
  exists bs, mapM (width_changed param original) ws = Ok bs /\
             (existsb (fun b : bool => b) bs = true <->
              exists w, w ∈ ws /\ width_differs param original w).
Proof.
  induction ws as [|w ws IH]; intros Hdom.
  - exists []. split; [reflexivity | ]. split; [discriminate | ].
    intros (w & Hw & _). inversion Hw.
  - destruct (width_changed_spec param original w) as (b & Hb & Hbspec).
    { apply Hdom. left. }
    destruct IH as (bs & Hbs & Hbsspec).
    { intros w' Hw'. apply Hdom. right. exact Hw'. }
    exists (b :: bs). split.
    + simpl. rewrite Hb. simpl. rewrite Hbs. reflexivity.
    + simpl. rewrite orb_true_iff, Hbspec, Hbsspec. split.
      * intros [Hd | (w' & Hw' & Hd)]; [exists w | exists w']; split; auto;
          [left | right; exact Hw'].
      * intros (w' & Hw' & Hd). inversion Hw'; subst; eauto.
Qed.

(** C5, amended: where the original parameter values have a value for every
    width that the new set names, a new set in which a width differs from
    the original value makes [test_update_parameters] raise the
    geometry-changed [ValueError]; a new set in which no width differs goes
    through [update_model] and [check_well_posedness], so that the call
    returns only with a model that passed the check. *)
Theorem test_update_parameters_geometry_guard :
  forall (update_model : gmap string V -> ModelT -> DiscT -> result ModelT)
         (check_well_posedness : ModelT -> result unit)
         (self : @StandardModelTest ModelT V SolverT DiscT)
         (param : gmap string V),
    (forall w, w ∈ width_parameters -> is_Some (param !! w) ->
               is_Some (self_parameter_values self !! w)) ->
    ((exists w, w ∈ width_parameters /\
                width_differs param (self_parameter_values self) w) ->
     test_update_parameters update_model check_well_posedness self param
     = Raise (ValueError
                "geometry has changed, the orginal model needs to be re-discretised"))
    /\
    (~ (exists w, w ∈ width_parameters /\
                  width_differs param (self_parameter_values self) w) ->
     test_update_parameters update_model check_well_posedness self param
     = (model ← update_model param (self_model self) (self_disc self);
        _ ← check_well_posedness model;
        Ok (mkStandardModelTest model (self_parameter_values self)
              (self_solver self) (self_disc self) (Some param))) /\
     forall self',
       test_update_parameters update_model check_well_posedness self param
       = Ok self' ->
       update_model param (self_model self) (self_disc self) = Ok (self_model self') /\
       check_well_posedness (self_model self') = Ok tt /\
       self_param self' = Some param).
Proof.
  intros update_model check_well_posedness self param Hdom.
  destruct (any_width_changed_spec param (self_parameter_values self)
              width_parameters Hdom) as (bs & Hbs & Hspec).
  unfold test_update_parameters. rewrite Hbs. simpl.
  split.
  - intros Hd. apply Hspec in Hd. rewrite Hd. reflexivity.
  - intros Hnd.
    destruct (existsb (fun b : bool => b) bs) eqn:Hany.
    + exfalso. apply Hnd, Hspec. reflexivity.
    + split; [reflexivity | ].
      intros self' Hok.
      apply bind_Ok in Hok as (model & Hup & Hok).
      apply bind_Ok in Hok as (u & Hcheck & Hok).
      injection Hok as <-. simpl. destruct u. auto.
Qed.

End StandardModelTestProperties.

(** ** The substitution pass leaves no parameter *)

Section ParameterFree.

Lemma parameter_free_children (cs : list Symbol) :
  existsb is_parameter (flat_map pre_order cs) = false <->
  Forall parameter_free cs.
Proof.
  induction cs as [|c cs IH]; simpl.
  - split; [constructor | reflexivity].
  - rewrite existsb_app, orb_false_iff, IH. split.
    + intros [Hc Hcs]. constructor; assumption.
    + intros Hall. inversion Hall; subst. split; assumption.
Qed.

Lemma parameter_free_binary op l r :
  parameter_free (BinaryOperator op l r) <->
  parameter_free l /\ parameter_free r.
Proof.
  unfold parameter_free, has_parameter. simpl.
  rewrite existsb_app, orb_false_iff. reflexivity.
Qed.


Lemma parameter_free_spatial k c :
  parameter_free (SpatialOperator k c) <-> parameter_free c.
Proof. reflexivity. Qed.

Lemma parameter_free_broadcast c d :
  parameter_free (Broadcast c d) <-> parameter_free c.
Proof. reflexivity. Qed.

Lemma parameter_free_concatenation cs d :
  parameter_free (Concatenation cs d) <-> Forall parameter_free cs.
Proof. unfold parameter_free at 1, has_parameter. simpl. apply parameter_free_children. Qed.

Variable P : gmap string pvalue.

Lemma process_symbol_FunctionParameter n args :
  process_symbol P (FunctionParameter n args) =
  (args' ← process_symbols P args;
   match P !! n with
   | Some (PCallable f) => f args'
   | Some (PNumber _) => Raise (TypeError "object is not callable")
   | None => Raise (KeyError n)
   end).
Proof.
  simpl. f_equal.
  induction args as [|a args IH]; simpl; [reflexivity | ].
  rewrite IH. reflexivity.
Qed.

Lemma process_symbol_Concatenation cs d :
  process_symbol P (Concatenation cs d) =
  (fun cs' => Concatenation cs' d) <$> process_symbols P cs.
Proof.
  simpl. f_equal.
  induction cs as [|a cs IH]; simpl; [reflexivity | ].
  rewrite IH. reflexivity.
Qed.

Lemma resolves_FunctionParameter n args :
  resolves P (FunctionParameter n args) <->
  (exists f, P !! n = Some (PCallable f) /\ resolved_callable f (length args)) /\
  Forall (resolves P) args.
Proof.
  simpl. apply and_iff_compat_l.
  induction args as [|a args IH]; simpl.
  - split; [constructor | trivial].
  - rewrite IH. split.
    + intros [Ha Hargs]. constructor; assumption.
    + intros Hall. inversion Hall; subst. split; assumption.
Qed.

Lemma resolves_Concatenation cs d :
  resolves P (Concatenation cs d) <-> Forall (resolves P) cs.
Proof.
  simpl.
  induction cs as [|a cs IH]; simpl.
  - split; [constructor | trivial].
  - rewrite IH. split.
    + intros [Ha Hcs]. constructor; assumption.
    + intros Hall. inversion Hall; subst. split; assumption.
Qed.

Lemma process_symbols_free (cs : list Symbol) :
  Forall (processed_free P) cs -> Forall (resolves P) cs ->
  exists cs', process_symbols P cs = Ok cs' /\
              Forall parameter_free cs' /\ length cs' = length cs.
Proof.
  induction 1 as [|c cs Hc Hcs IH]; intros Hres.
  - exists []. repeat split; constructor.
  - inversion Hres as [|? ? Hrc Hrcs]; subst.
    destruct (Hc Hrc) as (c' & Hpc & Hfc).
    destruct (IH Hrcs) as (cs' & Hpcs & Hfcs & Hlen).
    exists (c' :: cs'). simpl. rewrite Hpc. simpl. rewrite Hpcs. simpl.
    repeat split; [constructor; assumption | congruence].
Qed.

Lemma process_symbol_free (s : Symbol) : (processed_free P) s.
Proof.
  induction s using Symbol_ind_nested; unfold processed_free.
  - intros [q Hq]. simpl. rewrite Hq. eexists; split; reflexivity.
  - rewrite resolves_FunctionParameter, process_symbol_FunctionParameter.
    intros [(f & Hf & Hcall) Hargs].
    destruct (process_symbols_free args H Hargs) as (args' & Hp & Hfree & Hlen).
    rewrite Hp, Hf. simpl. apply Hcall; assumption.
  - intros _. eexists; split; reflexivity.
  - intros _. eexists; split; reflexivity.
  - intros _. eexists; split; reflexivity.
  - intros _. eexists; split; reflexivity.
  - intros [Hl Hr].
    destruct (IHs1 Hl) as (l' & Hpl & Hfl).
    destruct (IHs2 Hr) as (r' & Hpr & Hfr).
    simpl. rewrite Hpl, Hpr. simpl. eexists; split; [reflexivity | ].
    apply parameter_free_binary. split; assumption.
  - intros Hc. destruct (IHs Hc) as (c' & Hpc & Hfc).
    simpl. rewrite Hpc. simpl. eexists; split; [reflexivity | exact Hfc].
  - intros Hc. destruct (IHs Hc) as (c' & Hpc & Hfc).
    simpl. rewrite Hpc. simpl. eexists; split; [reflexivity | exact Hfc].
  - intros Hc. destruct (IHs Hc) as (c' & Hpc & Hfc).
    simpl. rewrite Hpc. simpl. eexists; split; [reflexivity | exact Hfc].
  - rewrite resolves_Concatenation, process_symbol_Concatenation.
    intros Hcs.
    destruct (process_symbols_free cs H Hcs) as (cs' & Hp & Hfree & _).
    rewrite Hp. simpl. eexists; split; [reflexivity | ].
    apply parameter_free_concatenation. exact Hfree.
Qed.

Lemma process_equations_free (d : equations) :
  Forall (fun kv => resolves P kv.2) d ->
  exists d', process_equations P d = Ok d' /\
             Forall (fun kv => has_parameter kv.2 = false) d' /\
             map fst d' = map fst d.
Proof.
  induction 1 as [|[k eqn] d Heqn Hd IH].
  - exists []. repeat split; constructor.
  - destruct (process_symbol_free eqn Heqn) as (eqn' & Hp & Hf).
    destruct IH as (d' & Hpd & Hfd & Hkeys).
    exists ((k, eqn') :: d'). simpl in *. rewrite Hp. simpl. rewrite Hpd. simpl.
    repeat split; [constructor; assumption | congruence].
Qed.

Lemma process_boundary_free (b : boundary) :
  Forall (fun sb => resolves P sb.2.1) b ->
  exists b', process_boundary P b = Ok b' /\
             Forall (fun sb => has_parameter sb.2.1 = false) b'.
Proof.
  induction 1 as [|[side [eqn kind]] b Heqn Hb IH].
  - exists []. split; constructor.
  - destruct (process_symbol_free eqn Heqn) as (eqn' & Hp & Hf).
    destruct IH as (b' & Hpb & Hfb).
    exists ((side, (eqn', kind)) :: b'). simpl in *. rewrite Hp. simpl.
    rewrite Hpb. simpl. split; [reflexivity | constructor; assumption].
Qed.

Lemma process_boundary_conditions_free (bcs : list (Symbol * boundary)) :
  Forall (resolves P) (flat_map (fun kb => map (fun sb => sb.2.1) kb.2) bcs) ->
  exists bcs', process_boundary_conditions P bcs = Ok bcs' /\
               Forall (fun s => has_parameter s = false)
                 (flat_map (fun kb => map (fun sb => sb.2.1) kb.2) bcs').
Proof.
  induction bcs as [|[k b] bcs IH]; simpl; intros Hres.
  - exists []. split; constructor.
  - apply Forall_app in Hres as [Hb Hbcs].
    destruct (process_boundary_free b) as (b' & Hpb & Hfb).
    { rewrite List.Forall_map in Hb. exact Hb. }
    destruct (IH Hbcs) as (bcs' & Hp & Hf).
    exists ((k, b') :: bcs'). rewrite Hpb. simpl. rewrite Hp. simpl.
    split; [reflexivity | ].
    apply Forall_app. split; [ | exact Hf].
    rewrite List.Forall_map. exact Hfb.
Qed.

End ParameterFree.


(** The scan at the end of [test_processing_parameters] finds nothing in a
    processed model, so the test does not raise its [TypeError]. *)
Lemma dict_set_values {V} (Q : V -> Prop) (d : list (Symbol * V)) k v :
  Forall (fun kv => Q kv.2) d -> Q v -> Forall (fun kv => Q kv.2) (dict_set d k v).
Proof.
  induction 1 as [|[k' v'] d Hkv Hd IH]; intros Hv; simpl.
  - constructor; [exact Hv | constructor].
  - destruct (Symbol_eqb k' k); constructor; auto.
Qed.

Lemma dict_merge_values {V} (Q : V -> Prop) (a b : list (Symbol * V)) :
  Forall (fun kv => Q kv.2) a -> Forall (fun kv => Q kv.2) b ->
  Forall (fun kv => Q kv.2) (dict_merge a b).
Proof.
  intros Ha Hb. revert a Ha. unfold dict_merge.
  induction Hb as [|[k v] b Hkv Hb IH]; intros a Ha; simpl; [exact Ha | ].
  apply IH. apply dict_set_values; assumption.
Qed.

Lemma scan_processed_ok (M : Model) :
  Forall (fun kv => has_parameter kv.2 = false) (rhs M) ->
  Forall (fun kv => has_parameter kv.2 = false) (algebraic M) ->
  scan_processed M = Ok tt.
Proof.
  intros Hrhs Halg. unfold scan_processed.
  pose proof (dict_merge_values (fun eqn => has_parameter eqn = false) _ _ Hrhs Halg)
    as Hall.
  destruct (existsb _ _) eqn:Hex; [ | reflexivity].
  apply existsb_exists in Hex as (kv & Hin & Hkv).
  rewrite Forall_forall in Hall. apply list_elem_of_In in Hin.
  rewrite (Hall kv Hin) in Hkv. discriminate Hkv.
Qed.

Lemma processed_model_passes_scan (P : gmap string pvalue) (M : Model) :
  resolves_model P M ->
  exists M', process_model P M = Ok M' /\ scan_processed M' = Ok tt.
Proof.
  intros (Hrhs & Halg & Hini & Hbc).
  destruct (process_equations_free P _ Hrhs) as (rhs' & Hp1 & Hf1 & _).
  destruct (process_equations_free P _ Halg) as (alg' & Hp2 & Hf2 & _).
  destruct (process_equations_free P _ Hini) as (ini' & Hp3 & _).
  destruct (process_boundary_conditions_free P _ Hbc) as (bcs' & Hp4 & _).
  exists (mkModel rhs' alg' ini' bcs').
  unfold process_model. rewrite Hp1. simpl. rewrite Hp2. simpl.
  rewrite Hp3. simpl. rewrite Hp4. simpl.
  split; [reflexivity | apply scan_processed_ok; assumption].
Qed.



(** ** The allocation tiles the state vector *)

Section Tiling.

Ltac cases_lia :=
  repeat match goal with
    | |- context [(?a <=? ?b)%nat] => destruct (Nat.leb_spec a b)
    | |- context [(?a <? ?b)%nat] => destruct (Nat.ltb_spec a b)
    | H : context [(?a <=? ?b)%nat] |- _ => destruct (Nat.leb_spec a b)
    | H : context [(?a <? ?b)%nat] |- _ => destruct (Nat.ltb_spec a b)
    end; simpl in *; try reflexivity; try lia.

Lemma coverage_cons r rs i :
  coverage (r :: rs) i = indicator r i + coverage rs i.
Proof. unfold coverage, indicator. simpl. destruct (in_range r i); reflexivity. Qed.

Lemma coverage_consecutive sizes start i :
  coverage (consecutive start sizes) i =
  if (start <=? i)%nat && (i <? start + sum_list sizes)%nat then 1 else 0.
Proof.
  revert start. induction sizes as [|n ns IH]; intros start; simpl.
  - cases_lia.
  - rewrite coverage_cons, IH. unfold indicator, in_range. simpl. cases_lia.
Qed.

Lemma total_consecutive sizes start :
  total_state_size (consecutive start sizes) = sum_list sizes.
Proof.
  revert start. unfold total_state_size.
  induction sizes as [|n ns IH]; intros start; simpl; [reflexivity | ].
  rewrite IH. unfold range_size. simpl. lia.
Qed.

(** An index in a range is counted. *)
Lemma coverage_elem ranges r i :
  r ∈ ranges -> in_range r i = true -> 1 <= coverage ranges i.
Proof.
  induction 1 as [r rs | r r' rs Hin IH]; intros Hr; rewrite coverage_cons.
  - unfold indicator. rewrite Hr. lia.
  - specialize (IH Hr). lia.
Qed.

Lemma coverage_pos ranges i :
  1 <= coverage ranges i -> exists r, r ∈ ranges /\ in_range r i = true.
Proof.
  induction ranges as [|r rs IH]; [unfold coverage; simpl; lia | ].
  rewrite coverage_cons. unfold indicator.
  destruct (in_range r i) eqn:Hr.
  - intros _. exists r. split; [left | exact Hr].
  - intros Hc. destruct IH as (r' & Hin & Hr'); [lia | ].
    exists r'. split; [right; exact Hin | exact Hr'].
Qed.

(** An index in two ranges is counted twice, and conversely. *)
Lemma coverage_two ranges j k r1 r2 i :
  j <> k -> ranges !! j = Some r1 -> ranges !! k = Some r2 ->
  in_range r1 i = true -> in_range r2 i = true -> 2 <= coverage ranges i.
Proof.
  revert j k. induction ranges as [|r rs IH]; intros j k Hjk Hj Hk H1 H2.
  - discriminate Hj.
  - rewrite coverage_cons. destruct j as [|j], k as [|k]; simpl in *.
    + congruence.
    + injection Hj as ->. unfold indicator. rewrite H1.
      assert (1 <= coverage rs i); [ | lia].
      eapply coverage_elem; [ | exact H2]. eapply list_elem_of_lookup_2. exact Hk.
    + injection Hk as ->. unfold indicator. rewrite H2.
      assert (1 <= coverage rs i); [ | lia].
      eapply coverage_elem; [ | exact H1]. eapply list_elem_of_lookup_2. exact Hj.
    + assert (2 <= coverage rs i); [ | lia].
      apply (IH j k); auto.
Qed.

Lemma coverage_two_inv ranges i :
  2 <= coverage ranges i ->
  exists j k r1 r2,
    j <> k /\ ranges !! j = Some r1 /\ ranges !! k = Some r2 /\
    in_range r1 i = true /\ in_range r2 i = true.
Proof.
  induction ranges as [|r rs IH]; [unfold coverage; simpl; lia | ].
  rewrite coverage_cons. unfold indicator.
  destruct (in_range r i) eqn:Hr; intros Hc.
  - destruct (coverage_pos rs i) as (r' & Hin & Hr'); [lia | ].
    apply list_elem_of_lookup_1 in Hin as [k Hk].
    exists 0, (S k), r, r'. repeat split; auto.
  - destruct IH as (j & k & r1 & r2 & Hjk & Hj & Hk & H1 & H2); [lia | ].
    exists (S j), (S k), r1, r2. repeat split; auto.
Qed.

Lemma disjoint_coverage ranges :
  pairwise_disjoint ranges <-> forall i, coverage ranges i <= 1.
Proof.
  split.
  - intros Hd i. destruct (le_lt_dec (coverage ranges i) 1) as [|Hc]; [assumption | ].
    destruct (coverage_two_inv ranges i Hc) as (j & k & r1 & r2 & Hjk & Hj & Hk & H1 & H2).
    exfalso. apply (Hd j k r1 r2 i); auto.
  - intros Hc j k r1 r2 i Hjk Hj Hk [H1 H2].
    pose proof (coverage_two ranges j k r1 r2 i Hjk Hj Hk H1 H2).
    specialize (Hc i). lia.
Qed.

(** The check returns exactly when every index it visits is in one range;
    otherwise it raises one of the two errors of the model. *)
Lemma check_indices_ok ranges idxs :
  check_indices ranges idxs = Ok tt <-> Forall (fun i => coverage ranges i = 1) idxs.
Proof.
  induction idxs as [|i idxs IH]; simpl.
  - split; [constructor | reflexivity].
  - destruct (coverage ranges i) as [|[|c]] eqn:Hc.
    + split; [discriminate | ]. intros Hall. inversion Hall; subst. lia.
    + rewrite IH. split.
      * intros Hall. constructor; [exact Hc | exact Hall].
      * intros Hall. inversion Hall; subst. assumption.
    + split; [discriminate | ]. intros Hall. inversion Hall; subst. lia.
Qed.

Lemma check_indices_error ranges idxs :
  check_indices ranges idxs <> Ok tt ->
  (check_indices ranges idxs = Raise (ModelError "Missing variable") /\
   exists i, i ∈ idxs /\ coverage ranges i = 0) \/
  (check_indices ranges idxs = Raise (ModelError "duplicate state") /\
   exists i, i ∈ idxs /\ 2 <= coverage ranges i).
Proof.
  induction idxs as [|i idxs IH]; simpl; [congruence | ].
  destruct (coverage ranges i) as [|[|c]] eqn:Hc; intros Hne.
  - left. split; [reflexivity | ]. exists i. split; [left | exact Hc].
  - destruct (IH Hne) as [(He & j & Hj & Hcj) | (He & j & Hj & Hcj)].
    + left. split; [exact He | ]. exists j. split; [right; exact Hj | exact Hcj].
    + right. split; [exact He | ]. exists j. split; [right; exact Hj | exact Hcj].
  - right. split; [reflexivity | ]. exists i. split; [left | lia].
Qed.

(** Counting the pairs (range, index) by range and by index. *)
Lemma sum_indicator r B :
  sum_list (map (indicator r) (seq 0 B)) = Nat.min r.2 B - Nat.min r.1 B.
Proof.
  induction B as [|B IH]; [simpl; lia | ].
  rewrite seq_S, map_app, sum_list_with_app, IH. simpl.
  unfold indicator, in_range. cases_lia.
Qed.

Lemma sum_map_add {A} (f g : A -> nat) (l : list A) :
  sum_list (map (fun x => f x + g x) l) = sum_list (map f l) + sum_list (map g l).
Proof. induction l as [|x l IH]; simpl; [reflexivity | ]. rewrite IH. lia. Qed.

Lemma sum_coverage ranges B :
  Forall (fun r => r.2 <= B) ranges ->
  sum_list (map (coverage ranges) (seq 0 B)) = total_state_size ranges.
Proof.
  induction 1 as [|r rs Hr Hrs IH].
  - unfold total_state_size, coverage. simpl.
    induction (seq 0 B) as [|x l IHl]; simpl; [reflexivity | exact IHl].
  - rewrite (map_ext _ (fun i => indicator r i + coverage rs i))
      by (intros i; apply coverage_cons).
    rewrite sum_map_add, IH, sum_indicator.
    unfold total_state_size, range_size. simpl. lia.
Qed.

Lemma max_last_bound ranges B :
  max_last ranges <= B -> Forall (fun r => r.2 <= B) ranges.
Proof.
  induction ranges as [|r rs IH]; simpl; intros Hb; constructor.
  - lia.
  - apply IH. lia.
Qed.

Lemma coverage_beyond ranges B i :
  Forall (fun r => r.2 <= B) ranges -> B <= i -> coverage ranges i = 0.
Proof.
  induction 1 as [|r rs Hr Hrs IH]; intros Hi; [reflexivity | ].
  rewrite coverage_cons, IH by assumption.
  unfold indicator, in_range. cases_lia.
Qed.

Lemma sum_all_one (f : nat -> nat) (l : list nat) :
  Forall (fun i => f i = 1) l -> sum_list (map f l) = length l.
Proof. induction 1 as [|x l Hx Hl IH]; simpl; [reflexivity | ]. rewrite Hx, IH. reflexivity. Qed.

Lemma sum_zero (f : nat -> nat) (l : list nat) i :
  sum_list (map f l) = 0 -> i ∈ l -> f i = 0.
Proof.
  induction l as [|x l IH]; simpl; intros Hs Hi; inversion Hi; subst.
  - lia.
  - apply IH; [lia | assumption].
Qed.

(** When every index below the total size is in exactly one range, no range
    reaches beyond the total size. *)
Lemma coverage_exact ranges :
  (forall i, i < total_state_size ranges -> coverage ranges i = 1) ->
  forall i, total_state_size ranges <= i -> coverage ranges i = 0.
Proof.
  intros Hone i Hi.
  set (T := total_state_size ranges) in *.
  set (B := Nat.max (max_last ranges) T).
  assert (Hbound : Forall (fun r => r.2 <= B) ranges)
    by (apply max_last_bound; unfold B; lia).
  destruct (le_lt_dec B i) as [Hbi | Hbi].
  - apply (coverage_beyond ranges B i Hbound Hbi).
  - pose proof (sum_coverage ranges B Hbound) as Hsum.
    replace B with (T + (B - T)) in Hsum at 1 by (unfold B; lia).
    rewrite seq_app, map_app, sum_list_with_app in Hsum.
    rewrite (sum_all_one (coverage ranges) (seq 0 T)) in Hsum.
    + rewrite length_seq in Hsum. fold T in Hsum.
      apply (sum_zero (coverage ranges) (seq (0 + T) (B - T))); [lia | ].
      apply elem_of_seq. lia.
    + apply Forall_forall. intros j Hj. apply elem_of_seq in Hj.
      apply Hone. lia.
Qed.

(** The check accepts exactly the lists of ranges that tile the interval
    from 0 to the total state size. *)
Lemma check_state_vectors_tiling ranges :
  check_state_vectors ranges = Ok tt <->
  pairwise_disjoint ranges /\ covers_exactly ranges (total_state_size ranges).
Proof.
  unfold check_state_vectors. rewrite check_indices_ok, disjoint_coverage.
  split.
  - intros Hall.
    assert (Hone : forall i, i < total_state_size ranges -> coverage ranges i = 1).
    { intros i Hi. rewrite Forall_forall in Hall. apply Hall.
      apply elem_of_seq. lia. }
    pose proof (coverage_exact ranges Hone) as Hzero.
    split.
    + intros i. destruct (le_lt_dec (total_state_size ranges) i) as [Hi | Hi].
      * rewrite (Hzero i Hi). lia.
      * rewrite (Hone i Hi). lia.
    + intros i. split.
      * intros Hi. apply coverage_pos. rewrite (Hone i Hi). lia.
      * intros (r & Hr & Hin).
        pose proof (coverage_elem ranges r i Hr Hin) as Hc.
        destruct (le_lt_dec (total_state_size ranges) i) as [Hi | Hi]; [ | exact Hi].
        rewrite (Hzero i Hi) in Hc. lia.
  - intros [Hle Hcov]. apply Forall_forall. intros i Hi.
    apply elem_of_seq in Hi.
    destruct (proj1 (Hcov i)) as (r & Hr & Hin); [lia | ].
    pose proof (coverage_elem ranges r i Hr Hin).
    specialize (Hle i). lia.
Qed.

End Tiling.

Lemma slices_consecutive npts start vars :
  map snd (set_variable_slices npts start vars) =
  consecutive start (map (discretised_size npts) vars).
Proof.
  revert start. induction vars as [|v vs IH]; intros start; simpl; [reflexivity | ].
  rewrite IH. reflexivity.
Qed.

Lemma slices_variables npts start vars :
  map fst (set_variable_slices npts start vars) = vars.
Proof.
  revert start. induction vars as [|v vs IH]; intros start; simpl; [reflexivity | ].
  rewrite IH. reflexivity.
Qed.

Lemma slices_sizes npts start vars :
  Forall (fun vr => range_size vr.2 = discretised_size npts vr.1)
         (set_variable_slices npts start vars).
Proof.
  revert start. induction vars as [|v vs IH]; intros start; simpl; constructor.
  - unfold range_size. simpl. lia.
  - apply IH.
Qed.

(** C2: the ranges that [process_model] allocates are pairwise disjoint and
    their union is the interval from 0 to [N], the sum of the discretised
    sizes of the variables; each variable has a range of its size. The
    post-discretisation check accepts them; it accepts a list of ranges
    exactly when the list tiles the interval up to its total size, and raises
    [ModelError] on any other list. *)
Theorem allocated_ranges_tile_state_vector :
  forall (npts : string -> nat) (spatial_method : spatial_kind -> Symbol -> Symbol)
         (broadcast_method : list string -> Symbol -> Symbol) (M : Model),
    let slices := (discretise_model npts spatial_method broadcast_method M).1 in
    let ranges := allocated_ranges npts spatial_method broadcast_method M in
    let N := sum_list (map (discretised_size npts) (model_variables M)) in
    map fst slices = model_variables M /\
    Forall (fun vr => range_size vr.2 = discretised_size npts vr.1) slices /\
    pairwise_disjoint ranges /\
    covers_exactly ranges N /\
    check_state_vectors ranges = Ok tt /\
    (forall ranges',
        check_state_vectors ranges' = Ok tt <->
        pairwise_disjoint ranges' /\
        covers_exactly ranges' (total_state_size ranges')) /\
    (forall ranges',
        ~ (pairwise_disjoint ranges' /\
           covers_exactly ranges' (total_state_size ranges')) ->
        check_state_vectors ranges' = Raise (ModelError "Missing variable") \/
        check_state_vectors ranges' = Raise (ModelError "duplicate state")).
Proof.
  intros npts spatial_method broadcast_method M slices ranges N.
  assert (Hranges : ranges = consecutive 0 (map (discretised_size npts) (model_variables M)))
    by apply slices_consecutive.
  assert (Htotal : total_state_size ranges = N)
    by (rewrite Hranges; apply total_consecutive).
  assert (Hcheck : check_state_vectors ranges = Ok tt).
  { unfold check_state_vectors. apply check_indices_ok, Forall_forall.
    intros i Hi. apply elem_of_seq in Hi. rewrite Htotal in Hi.
    rewrite Hranges, coverage_consecutive. fold N.
    destruct (Nat.leb_spec 0 i), (Nat.ltb_spec i (0 + N)); simpl; lia. }
  pose proof (proj1 (check_state_vectors_tiling ranges) Hcheck) as [Hdis Hcov].
  rewrite Htotal in Hcov.
  split; [ | split; [ | split; [ | split; [ | split; [ | split]]]]].
  - apply slices_variables.
  - apply slices_sizes.
  - exact Hdis.
  - exact Hcov.
  - exact Hcheck.
  - apply check_state_vectors_tiling.
  - intros ranges' Hnot.
    destruct (check_indices_error ranges' (seq 0 (total_state_size ranges')))
      as [[He _] | [He _]].
    + intros Hok. apply Hnot, check_state_vectors_tiling. exact Hok.
    + left. exact He.
    + right. exact He.
Qed.

(** ** Evaluation through [known_evals] *)

Lemma Symbol_eqb_eq (s s' : Symbol) : Symbol_eqb s s' = true <-> s = s'.
Proof.
  revert s'. induction s using Symbol_ind_nested; intros s'; destruct s'; simpl;
    try (split; [discriminate | congruence]).
  - rewrite bool_decide_eq_true. split; congruence.
  - rewrite andb_true_iff, bool_decide_eq_true.
    match goal with
    | |- _ /\ ?g args ?ys = true <-> _ =>
        assert (Hlist : forall l, g args l = true <-> args = l)
    end.
    { induction H as [|x xs Hx Hxs IH]; intros [|y l]; simpl;
        try (split; [discriminate | congruence]); [tauto | ].
      rewrite andb_true_iff, Hx, IH. split; [intros [-> ->]; reflexivity | ].
      intros [= -> ->]. auto. }
    rewrite Hlist. split; [intros [-> ->]; reflexivity | intros [= -> ->]; auto].
  - rewrite andb_true_iff, !bool_decide_eq_true.
    split; [intros [-> ->]; reflexivity | intros [= -> ->]; auto].
  - rewrite andb_true_iff, !Nat.eqb_eq.
    split; [intros [-> ->]; reflexivity | intros [= -> ->]; auto].
  - rewrite bool_decide_eq_true. split; congruence.
  - tauto.
  - rewrite !andb_true_iff, IHs1, IHs2.
    split.
    + intros [[Hop ->] ->]. destruct op, op0; try discriminate Hop; reflexivity.
    + intros [= -> -> ->]. destruct op0; auto.
  - rewrite andb_true_iff, IHs.
    split.
    + intros [Hop ->]. destruct op, op0; try discriminate Hop; try reflexivity.
      apply bool_decide_eq_true in Hop. subst. reflexivity.
    + intros [= -> ->]. split; [ | reflexivity].
      destruct op0; try reflexivity. apply bool_decide_eq_true. reflexivity.
  - rewrite andb_true_iff, IHs.
    split.
    + intros [Hk ->]. destruct k, kind; try discriminate Hk; reflexivity.
    + intros [= -> ->]. destruct kind; auto.
  - rewrite andb_true_iff, IHs, bool_decide_eq_true.
    split; [intros [-> ->]; reflexivity | intros [= -> ->]; auto].
  - rewrite andb_true_iff, bool_decide_eq_true.
    match goal with
    | |- ?g cs ?ys = true /\ _ <-> _ =>
        assert (Hlist : forall l, g cs l = true <-> cs = l)
    end.
    { induction H as [|x xs Hx Hxs IH]; intros [|y l]; simpl;
        try (split; [discriminate | congruence]); [tauto | ].
      rewrite andb_true_iff, Hx, IH. split; [intros [-> ->]; reflexivity | ].
      intros [= -> ->]. auto. }
    rewrite Hlist. split; [intros [-> ->]; reflexivity | intros [= -> ->]; auto].
Qed.

Section KnownEvals.

Variable np_function : string -> Qc -> result Qc.
Variable np_power : Qc -> Qc -> Qc.
Variable t : Qc.
Variable y : list Qc.

#[local] Abbreviation eval := (evaluate np_function np_power).
#[local] Abbreviation eval_known := (evaluate_known np_function np_power).

Lemma consistent_nil : consistent np_function np_power t y [].
Proof. intros s v Hl. discriminate Hl. Qed.

Lemma consistent_store k s v :
  consistent np_function np_power t y k -> eval s t y = Ok v -> consistent np_function np_power t y ((s, v) :: k).
Proof.
  intros Hk Hs s' v'. simpl.
  destruct (Symbol_eqb s s') eqn:Heq.
  - apply Symbol_eqb_eq in Heq as <-. intros [= <-]. exact Hs.
  - apply Hk.
Qed.

Lemma evaluate_Concatenation cs d :
  eval (Concatenation cs d) t y = Arr <$> evaluate_children np_function np_power cs t y.
Proof.
  simpl. f_equal.
  induction cs as [|c cs IH]; simpl; [reflexivity | ].
  rewrite IH. reflexivity.
Qed.

Lemma evaluate_known_Concatenation cs d k :
  eval_known (Concatenation cs d) t y k =
  match known_lookup k (Concatenation cs d) with
  | Some v => (Ok v, k)
  | None =>
      match evaluate_known_children np_function np_power t y cs k with
      | (Ok a, k1) => (Ok (Arr a), (Concatenation cs d, Arr a) :: k1)
      | (Raise e, k1) => (Raise e, k1)
      end
  end.
Proof.
  simpl. destruct (known_lookup k (Concatenation cs d)); [reflexivity | ].
  match goal with
  | |- match ?g cs k with _ => _ end = _ =>
      assert (Hgo : forall l k0, g l k0 = evaluate_known_children np_function np_power t y l k0)
  end.
  { induction l as [|c l IH]; intros k0; simpl; [reflexivity | ].
    destruct (eval_known c t y k0) as [[vc|e] k1]; [ | reflexivity].
    rewrite IH. reflexivity. }
  rewrite Hgo. reflexivity.
Qed.

(** A stored node is answered from the mapping: neither the node nor
    anything below it is evaluated, and the mapping is left as it was. *)
Lemma evaluate_known_hit (s : Symbol) (k : known_evals) (v : value) :
  known_lookup k s = Some v -> eval_known s t y k = (Ok v, k).
Proof. intros Hl. destruct s; simpl; rewrite Hl; reflexivity. Qed.

Lemma known_children_correct cs :
  Forall (known_correct np_function np_power t y) cs ->
  forall k, consistent np_function np_power t y k ->
            (evaluate_known_children np_function np_power t y cs k).1 =
            evaluate_children np_function np_power cs t y /\
            consistent np_function np_power t y (evaluate_known_children np_function np_power t y cs k).2.
Proof.
  induction 1 as [|c cs Hc Hcs IH]; intros k Hk; simpl.
  - split; [reflexivity | exact Hk].
  - destruct (Hc k Hk) as [E1 C1].
    destruct (eval_known c t y k) as [[vc|e] k1]; simpl in *; rewrite <- E1; simpl.
    + destruct (IH k1 C1) as [E2 C2].
      destruct (evaluate_known_children np_function np_power t y cs k1) as [[rest|e] k2]; simpl in *;
        rewrite <- E2; simpl; split; first [reflexivity | exact C2].
    + split; [reflexivity | exact C1].
Qed.

Ltac known_case Hk Hl :=
  match goal with
  | |- (evaluate_known _ _ ?s _ _ ?kn).1 = _ /\ _ =>
      destruct (known_lookup kn s) eqn:Hl;
      [ rewrite (evaluate_known_hit s kn _ Hl);
        split; [symmetry; exact (Hk _ _ Hl) | exact Hk]
      | simpl; rewrite Hl ]
  end.

Lemma evaluate_known_correct (s : Symbol) : (known_correct np_function np_power t y) s.
Proof.
  induction s using Symbol_ind_nested; intros kn Hk.
  - known_case Hk Hl.
    simpl. split; [reflexivity | exact Hk].
  - known_case Hk Hl.
    simpl. split; [reflexivity | exact Hk].
  - known_case Hk Hl.
    simpl. split; [reflexivity | exact Hk].
  - known_case Hk Hl.
    simpl. split; [reflexivity | apply consistent_store; [exact Hk | reflexivity]].
  - known_case Hk Hl.
    simpl. split; [reflexivity | apply consistent_store; [exact Hk | reflexivity]].
  - known_case Hk Hl.
    simpl. split; [reflexivity | apply consistent_store; [exact Hk | reflexivity]].
  - known_case Hk Hl.
    destruct (IHs1 kn Hk) as [E1 C1].
    destruct (eval_known s1 t y kn) as [[vl|e] k1]; simpl in *; rewrite <- E1; simpl.
    + destruct (IHs2 k1 C1) as [E2 C2].
      destruct (eval_known s2 t y k1) as [[vr|e] k2]; simpl in *; rewrite <- E2; simpl.
      * destruct (binary_evaluate np_power op vl vr) as [v|e] eqn:Hb; simpl.
        -- split; [reflexivity | ]. apply consistent_store; [exact C2 | ].
           simpl. rewrite <- E1, <- E2. simpl. exact Hb.
        -- split; [reflexivity | exact C2].
      * split; [reflexivity | exact C2].
    + split; [reflexivity | exact C1].
  - known_case Hk Hl.
    destruct (IHs kn Hk) as [E1 C1].
    destruct (eval_known s t y kn) as [[vc|e] k1]; simpl in *; rewrite <- E1; simpl.
    + destruct (unary_evaluate np_function op vc) as [v|e] eqn:Hu; simpl.
      * split; [reflexivity | ]. apply consistent_store; [exact C1 | ].
        simpl. rewrite <- E1. simpl. exact Hu.
      * split; [reflexivity | exact C1].
    + split; [reflexivity | exact C1].
  - known_case Hk Hl.
    simpl. split; [reflexivity | exact Hk].
  - known_case Hk Hl.
    simpl. split; [reflexivity | exact Hk].
  - rewrite evaluate_known_Concatenation, evaluate_Concatenation.
    destruct (known_lookup kn _) eqn:Hl.
    + split; [ | exact Hk].
      rewrite <- (evaluate_Concatenation cs d). symmetry. exact (Hk _ _ Hl).
    + destruct (known_children_correct cs H kn Hk) as [E C].
      destruct (evaluate_known_children np_function np_power t y cs kn) as [[a|e] k1]; simpl in *;
        rewrite <- E; simpl.
      * split; [reflexivity | ]. apply consistent_store; [exact C | ].
        rewrite (evaluate_Concatenation cs d), <- E. reflexivity.
      * split; [reflexivity | exact C].
Qed.

End KnownEvals.

Lemma evaluate_equations_known np_function np_power simplify eqns y0
      use_simplify acc :
  evaluate_equations np_function np_power simplify eqns y0 use_simplify true acc =
  evaluate_equations np_function np_power simplify eqns y0 use_simplify false acc.
Proof.
  revert acc. induction eqns as [|eqn eqns IH]; intros acc; simpl; [reflexivity | ].
  destruct (evaluate_known_correct np_function np_power 0%Qc y0
              (if use_simplify then simplify eqn else eqn) [] (consistent_nil _ _ _ _))
    as [-> _].
  destruct (evaluate np_function np_power _ 0%Qc y0) as [v|e]; simpl; [ | reflexivity].
  destruct (np_concatenate acc v) as [acc'|e]; simpl; [apply IH | reflexivity].
Qed.

(** C7: for every symbol, time and state, evaluation through an empty
    [known_evals] returns the value (or raises the exception) of plain
    evaluation, and so does evaluation through any mapping whose entries are
    values at that time and state; [evaluate_model] gives the same result
    with and without [known_evals]. On a hit the stored value is returned
    and the mapping is unchanged, whatever the subtree is: it is not
    evaluated again. *)
Theorem known_evals_same_value :
  forall (np_function : string -> Qc -> result Qc) (np_power : Qc -> Qc -> Qc)
         (eqn : Symbol) (t : Qc) (y : list Qc),
    (evaluate_known np_function np_power eqn t y []).1 =
    evaluate np_function np_power eqn t y /\
    (forall known,
        consistent np_function np_power t y known ->
        (evaluate_known np_function np_power eqn t y known).1 =
        evaluate np_function np_power eqn t y /\
        consistent np_function np_power t y
          (evaluate_known np_function np_power eqn t y known).2) /\
    (forall known v,
        known_lookup known eqn = Some v ->
        evaluate_known np_function np_power eqn t y known = (Ok v, known)) /\
    (forall simplify concatenated_algebraic use_simplify,
        evaluate_model np_function np_power simplify eqn concatenated_algebraic y
          use_simplify true =
        evaluate_model np_function np_power simplify eqn concatenated_algebraic y
          use_simplify false).
Proof.
  intros np_function np_power eqn t y.
  split; [ | split; [ | split]].
  - apply evaluate_known_correct, consistent_nil.
  - intros known Hk. apply evaluate_known_correct, Hk.
  - intros known v. apply evaluate_known_hit.
  - intros simplify alg use_simplify. apply evaluate_equations_known.
Qed.

(** ** The model test harness on concrete parameter sets *)

(** C5, as stated, fails where the new set names a width that the original
    set lacks: the negative electrode width differs from its original value,
    and the call raises [KeyError] for the separator width, not the
    geometry-changed [ValueError]. *)
Lemma test_update_parameters_key_error :
  width_differs example_update example_original "Negative electrode width [m]" /\
  test_update_parameters (fun _ m _ => Ok m) (fun _ => Ok tt)
    (example_test example_original) example_update
  = Raise (KeyError "Separator width [m]") /\
  test_update_parameters (fun _ m _ => Ok m) (fun _ => Ok tt)
    (example_test example_original) example_update
  <> Raise (ValueError
              "geometry has changed, the orginal model needs to be re-discretised").
Proof.
  split; [ | split].
  - exists 2%Z, 1%Z. repeat split. discriminate.
  - reflexivity.
  - discriminate.
Qed.

Lemma test_update_parameters_geometry_guard_witness :
  test_update_parameters (fun _ m _ => Ok m) (fun _ => Ok tt)
    (example_test example_full_original) example_update
  = Raise (ValueError
             "geometry has changed, the orginal model needs to be re-discretised").
Proof.
  apply (test_update_parameters_geometry_guard (fun _ m _ => Ok m) (fun _ => Ok tt)
           (example_test example_full_original) example_update).
  - intros w Hw _. apply list_elem_of_In in Hw. simpl in Hw.
    destruct Hw as [<- | [<- | [<- | []]]]; eexists; reflexivity.
  - exists "Negative electrode width [m]". split.
    + apply list_elem_of_In. simpl. auto.
    + exists 2%Z, 1%Z. repeat split. discriminate.
Defined.

Lemma init_substitutes_default_for_falsy_witness :
  exists pv geo sub pts sm sol,
    init_locals (V := Z) (GeometryT := gmap string Z) (SubmeshT := list nat)
      (PtsT := list nat) (MethodsT := gmap string nat) (SolverT := list nat)
      (fun _ : unit => example_full_original) (fun _ => example_original)
      (fun _ => [1]) (fun _ => [20; 30]) (fun _ => <["macroscale" := 1]> ∅)
      (fun _ => [7]) tt
      (Some ∅) (Some ∅) None (Some [5]) (Some ∅) (Some [])
    = (pv, geo, sub, pts, sm, sol) /\
    pv = example_full_original /\ geo = example_original /\ sub = [1] /\
    pts = [5] /\ sm = <["macroscale" := 1]> ∅ /\ sol = [7].
Proof.
  destruct (init_substitutes_default_for_falsy
              (ModelT := unit) (V := Z) (GeometryT := gmap string Z)
              (SubmeshT := list nat) (PtsT := list nat)
              (MethodsT := gmap string nat) (SolverT := list nat)
              (MeshT := unit) (DiscT := unit)
              (fun _ : unit => example_full_original) (fun _ => example_original)
              (fun _ => [1]) (fun _ => [20; 30]) (fun _ => <["macroscale" := 1]> ∅)
              (fun _ => [7])
              (fun _ g => Ok g) (fun _ _ _ => Ok tt) (fun _ _ => Ok tt) tt
              (Some ∅) (Some ∅) None (Some [5]) (Some ∅) (Some []))
    as (pv & geo & sub & pts & sm & sol & Hloc & _ & Hpv & Hgeo & Hsub & _ & Hsm
        & Hsol & _ & _ & _ & Hpts & _ & _).
  exists pv, geo, sub, pts, sm, sol.
  split; [exact Hloc | ].
  split; [apply Hpv; reflexivity | ].
  split; [apply Hgeo; reflexivity | ].
  split; [apply Hsub; reflexivity | ].
  split; [ | split; [apply Hsm; reflexivity | apply Hsol; reflexivity]].
  specialize (Hpts eq_refl). injection Hpts as <-. reflexivity.
Defined.

(** ** The models on concrete inputs *)

(** A gap in the ranges is a missing variable, an overlap a duplicate state. *)
Example check_state_vectors_gap :
  check_state_vectors [(0, 2); (3, 5)] = Raise (ModelError "Missing variable").
Proof. reflexivity. Qed.

Example check_state_vectors_overlap :
  check_state_vectors [(0, 3); (2, 4)] = Raise (ModelError "duplicate state").
Proof. reflexivity. Qed.

Example check_state_vectors_tiled :
  check_state_vectors [(0, 3); (3, 3); (3, 7)] = Ok tt.
Proof. reflexivity. Qed.

(** The two variables of the example model, in the order of first encounter,
    on a mesh of three nodes per domain. *)
Example allocated_ranges_example :
  discretise_model (fun _ => 3) SpatialOperator (fun d c => Broadcast c d)
    (mkModel (rhs example_model) (algebraic example_model) [] [])
  = ([(Variable' "Negative particle concentration" ["negative particle"], (0, 3));
      (Variable' "Electrolyte concentration" ["separator"], (3, 6))],
     mkModel
       [(StateVector 0 3,
         (Parameter' "Negative electrode diffusivity [m2.s-1]" *
          FunctionParameter "Negative electrode exchange-current density [A.m-2]"
            [StateVector 3 6; StateVector 0 3; Scalar (decimal 29815 100)])%sym)]
       [(StateVector 3 6, (StateVector 3 6 - Scalar 1%Qc)%sym)] [] []).
Proof. reflexivity. Qed.

(** A state vector used twice is evaluated once: the second use is a hit. *)
Example known_evals_shared_subtree :
  let sv := StateVector 0 2 in
  evaluate_known (fun _ q => Ok q) (fun a _ => a) (sv + sv)%sym 0%Qc
    [decimal 1 1; decimal 2 1; decimal 3 1] []
  = (Ok (Arr [decimal 2 1; decimal 4 1]),
     [((sv + sv)%sym, Arr [decimal 2 1; decimal 4 1]);
      (sv, Arr [decimal 1 1; decimal 2 1])]).
Proof. reflexivity. Qed.

(** A stored node is not evaluated: a variable has no value of its own, yet
    the lookup answers. *)
Example known_evals_hit_not_evaluated :
  let c := Variable' "c" [] in
  evaluate (fun _ q => Ok q) (fun a _ => a) c 0%Qc [] =
  Raise (NotImplementedError
           "method self.evaluate() not implemented for symbol of type Variable") /\
  evaluate_known (fun _ q => Ok q) (fun a _ => a) c 0%Qc [] [(c, Num (decimal 7 1))]
  = (Ok (Num (decimal 7 1)), [(c, Num (decimal 7 1))]).
Proof. split; reflexivity. Qed.

(** A division by exact zero is a [DomainError]. *)
Example evaluate_division_by_zero :
  evaluate (fun _ q => Ok q) (fun a _ => a) (Scalar 1%Qc / (Time - Time))%sym 0%Qc []
  = Raise (DomainError "division by zero").
Proof. reflexivity. Qed.

(** The conductivity of the Chu2020 electrolyte at 300 K is 0.0257. *)
Example electrolyte_conductivity_at_300K :
  evaluate (fun _ q => Ok q) (fun a _ => a)
    (electrolyte_conductivity_Chu2020 (Scalar (decimal 300 1))) 0%Qc []
  = Ok (Num (decimal 257 10000)).
Proof. vm_compute. do 2 f_equal. apply Qc_is_canon. reflexivity. Qed.

(** ** The other methods of the electrolyte diffusion submodel *)


(** X2: whenever [set_rhs] succeeds on a mapping, [set_initial_conditions]
    succeeds on it too, on any object, and the initial condition is keyed by
    the variable that keys the equation: the variable that gets an equation
    gets an initial value. *)
Theorem set_rhs_has_initial_condition :
  forall (param : DiffusionParameters) (self1 self2 s1 : SubmodelState)
         (variables : gmap string Symbol),
    Full.set_rhs param self1 variables = Ok s1 ->
    exists s2,
      Full.set_initial_conditions param self2 variables = Ok s2 /\
      map fst (sub_initial_conditions s2) = map fst (sub_rhs s1) /\
      sub_rhs s2 = sub_rhs self2.
Proof.
  intros param self1 self2 s1 variables Hrhs.
  unfold Full.set_rhs in Hrhs. unfold Full.set_initial_conditions.
  apply bind_Ok in Hrhs as (eps_c_e & Heps & Hrhs). rewrite Heps. simpl.
  apply bind_Ok in Hrhs as (c_e & _ & Hrhs).
  apply bind_Ok in Hrhs as (N_e & _ & Hrhs).
  apply bind_Ok in Hrhs as (div_Vbox & _ & Hrhs).
  apply bind_Ok in Hrhs as (sum_s_j & _ & Hrhs).
  injection Hrhs as <-. eexists. repeat split; reflexivity.
Qed.

#[local] Instance setter_eq_dec : EqDecision setter.
Proof. solve_decision. Defined.


Section Setters.

Variable param : DiffusionParameters.
Variable variables : gmap string Symbol.
Variables eps_c_e c_e N_e div_Vbox sum_s_j : Symbol.
Hypothesis Heps : variables !! "Porosity times concentration" = Some eps_c_e.
Hypothesis Hc : variables !! "Electrolyte concentration" = Some c_e.
Hypothesis HN : variables !! "Electrolyte flux" = Some N_e.
Hypothesis Hdiv : variables !! "Transverse volume-averaged acceleration" = Some div_Vbox.
Hypothesis Hsum : variables !! "Sum of electrolyte reaction source terms" = Some sum_s_j.



End Setters.



Lemma dict_update_keeps (variables d : gmap string Symbol) (k : string) :
  is_Some (variables !! k) -> is_Some (dict_update variables d !! k).
Proof.
  intros Hk. unfold dict_update. apply lookup_union_is_Some. right. exact Hk.
Qed.

(** X4: [Full.get_coupled_variables] only adds to the mapping and replaces
    entries: every name that the mapping held is still in the mapping that
    the call returns. *)
Theorem get_coupled_variables_keeps_names :
  forall (param : DiffusionParameters) (base : BaseElectrolyteDiffusion)
         (variables result : gmap string Symbol),
    Full.get_coupled_variables param base variables = Ok result ->
    forall key, is_Some (variables !! key) -> is_Some (result !! key).
Proof.
  intros param base variables result Hget.
  unfold Full.get_coupled_variables in Hget.
  repeat (apply bind_Ok in Hget as (? & _ & Hget)).
  injection Hget as <-.
  intros key Hkey. repeat apply dict_update_keeps. exact Hkey.
Qed.


(** The submodel on the example mapping: the coupled variables supply the
    concentration and the flux, and the three equations are assigned. *)
Lemma get_coupled_variables_keeps_names_witness :
  match Full.get_coupled_variables example_diffusion_parameters example_base
          example_variables with
  | Ok result => is_Some (result !! "Cell temperature")
  | Raise _ => False
  end.
Proof.
  destruct (Full.get_coupled_variables example_diffusion_parameters example_base
              example_variables) as [result|e] eqn:Hget.
  - apply (get_coupled_variables_keeps_names _ _ _ _ Hget).
    eexists. reflexivity.
  - vm_compute in Hget. discriminate Hget.
Defined.

Lemma set_rhs_has_initial_condition_witness :
  match Full.set_rhs example_diffusion_parameters example_submodel
          example_coupled_variables with
  | Ok s1 =>
      exists s2,
        Full.set_initial_conditions example_diffusion_parameters
          (mkSubmodel [] [] [] []) example_coupled_variables = Ok s2 /\
        map fst (sub_initial_conditions s2) = map fst (sub_rhs s1) /\
        sub_rhs s2 = []
  | Raise _ => False
  end.
Proof.
  destruct (Full.set_rhs example_diffusion_parameters example_submodel
              example_coupled_variables) as [s1|e] eqn:Hrhs.
  - apply (set_rhs_has_initial_condition _ _ (mkSubmodel [] [] [] []) _ _ Hrhs).
  - vm_compute in Hrhs. discriminate Hrhs.
Defined.


(** ** The parameter functions introduce no leaf of their own *)

Lemma has_parameter_binary op l r :
  has_parameter (BinaryOperator op l r) = has_parameter l || has_parameter r.
Proof. unfold has_parameter. simpl. apply existsb_app. Qed.

Lemma variables_of_binary op l r :
  variables_of (BinaryOperator op l r) = variables_of l ++ variables_of r.
Proof. unfold variables_of. simpl. apply List.filter_app. Qed.

(** X6: the conductivity and the exchange-current density of the Chu2020 set
    bring in no parameter and no variable: the result holds a Parameter or
    FunctionParameter exactly when the temperature (or the gas constant)
    does, and its variables are those of the temperature (and of the gas
    constant), whatever the two concentrations are. *)
Theorem chu2020_functions_add_no_leaf :
  forall (R c_e c_s_surf T : Symbol),
    has_parameter (electrolyte_conductivity_Chu2020 T) = has_parameter T /\
    variables_of (electrolyte_conductivity_Chu2020 T) = variables_of T /\
    has_parameter (graphite_elyte_exchange_current_density_Chu2020 R c_e c_s_surf T)
    = has_parameter R || has_parameter T /\
    variables_of (graphite_elyte_exchange_current_density_Chu2020 R c_e c_s_surf T)
    = variables_of R ++ variables_of T.
Proof.
  intros R c_e c_s_surf T.
  unfold electrolyte_conductivity_Chu2020,
    graphite_elyte_exchange_current_density_Chu2020, exp.
  repeat split.
  - rewrite !has_parameter_binary. unfold has_parameter at 1 2 4. simpl.
    apply orb_false_r.
  - rewrite !variables_of_binary. unfold variables_of at 1 2 4. simpl.
    apply app_nil_r.
  - rewrite has_parameter_binary.
    change (has_parameter (UnaryOperator (Function "exp") ?x)) with (has_parameter x).
    rewrite !has_parameter_binary. unfold has_parameter at 1 2 4 5. simpl.
    reflexivity.
  - rewrite variables_of_binary.
    change (variables_of (UnaryOperator (Function "exp") ?x)) with (variables_of x).
    rewrite !variables_of_binary. unfold variables_of at 1 2 4 5. simpl.
    reflexivity.
Qed.

(** ** The scan of [test_processing_parameters] *)

Section DictMerge.

Context {V : Type}.

Lemma Symbol_eqb_neq (a b : Symbol) : Symbol_eqb a b = false <-> a <> b.
Proof.
  split.
  - intros Hf Heq. apply Symbol_eqb_eq in Heq. congruence.
  - intros Hne. destruct (Symbol_eqb a b) eqn:Heq; [ | reflexivity].
    apply Symbol_eqb_eq in Heq. contradiction.
Qed.

Lemma dict_set_keys (d : list (Symbol * V)) k v k' :
  k' ∈ map fst (dict_set d k v) <-> k' = k \/ k' ∈ map fst d.
Proof.
  induction d as [|[k0 v0] d IH]; simpl.
  - rewrite elem_of_cons. split; intros [Hk | Hk]; auto; inversion Hk.
  - destruct (Symbol_eqb k0 k) eqn:Heq; simpl.
    + apply Symbol_eqb_eq in Heq as ->. rewrite !elem_of_cons. tauto.
    + rewrite !elem_of_cons, IH. tauto.
Qed.

Lemma dict_set_NoDup (d : list (Symbol * V)) k v :
  NoDup (map fst d) -> NoDup (map fst (dict_set d k v)).
Proof.
  induction d as [|[k0 v0] d IH]; simpl; intros Hnd.
  - apply NoDup_singleton.
  - apply NoDup_cons in Hnd as [Hk0 Hnd].
    destruct (Symbol_eqb k0 k) eqn:Heq; simpl.
    + apply NoDup_cons. split; assumption.
    + apply NoDup_cons. split; [ | apply IH; exact Hnd].
      rewrite dict_set_keys. intros [-> | Hin]; [ | contradiction].
      apply Symbol_eqb_neq in Heq. contradiction.
Qed.

Lemma elem_key (d : list (Symbol * V)) k v : (k, v) ∈ d -> k ∈ map fst d.
Proof. intros Hin. apply (list_elem_of_fmap_2 fst) in Hin. exact Hin. Qed.

(** [d[k] = v] keeps the other entries and holds one entry for [k]. *)
Lemma dict_set_elem (d : list (Symbol * V)) k v k' v' :
  NoDup (map fst d) ->
  (k', v') ∈ dict_set d k v <-> (k' = k /\ v' = v) \/ (k' <> k /\ (k', v') ∈ d).
Proof.
  induction d as [|[k0 v0] d IH]; simpl; intros Hnd.
  - rewrite elem_of_cons. split.
    + intros [[= -> ->] | Hin]; [left; auto | inversion Hin].
    + intros [[-> ->] | [_ Hin]]; [left; reflexivity | inversion Hin].
  - apply NoDup_cons in Hnd as [Hk0 Hnd].
    destruct (Symbol_eqb k0 k) eqn:Heq.
    + apply Symbol_eqb_eq in Heq as ->. rewrite !elem_of_cons. split.
      * intros [[= -> ->] | Hin]; [left; auto | ].
        right. split; [ | right; exact Hin].
        intros ->. apply Hk0. eapply elem_key. exact Hin.
      * intros [[-> ->] | [Hne [[= -> ->] | Hin]]];
          [left; reflexivity | contradiction | right; exact Hin].
    + apply Symbol_eqb_neq in Heq. rewrite !elem_of_cons, (IH Hnd). split.
      * intros [[= -> ->] | [[-> ->] | [Hne Hin]]]; auto.
      * intros [[-> ->] | [Hne [[= -> ->] | Hin]]]; auto.
Qed.

(** [{**a, **b}] holds the entries of [b] and the entries of [a] whose key
    is not a key of [b]. *)
Lemma dict_merge_elem (a b : list (Symbol * V)) k v :
  NoDup (map fst a) -> NoDup (map fst b) ->
  (k, v) ∈ dict_merge a b <->
  (k, v) ∈ b \/ ((k, v) ∈ a /\ k ∉ map fst b).
Proof.
  unfold dict_merge. revert a.
  induction b as [|[k0 v0] b IH]; simpl; intros a Ha Hb.
  - split; [intros Hin; right; split; [exact Hin | intros Hk; inversion Hk] | ].
    intros [Hin | [Hin _]]; [inversion Hin | exact Hin].
  - apply NoDup_cons in Hb as [Hk0 Hb].
    rewrite (IH (dict_set a k0 v0) (dict_set_NoDup a k0 v0 Ha) Hb).
    rewrite (dict_set_elem a k0 v0 k v Ha), !elem_of_cons. split.
    + intros [Hin | [[[-> ->] | [Hne Hin]] Hnk]].
      * left. right. exact Hin.
      * left. left. reflexivity.
      * right. split; [exact Hin | intros [Heq | Hk]; contradiction].
    + intros [[[= -> ->] | Hin] | [Hin Hnk]].
      * right. split; [left; auto | exact Hk0].
      * left. exact Hin.
      * right. split.
        -- right. split; [ | exact Hin]. intros ->. apply Hnk. left. reflexivity.
        -- intros Hk. apply Hnk. right. exact Hk.
Qed.

End DictMerge.

(** X7: the scan at the end of [test_processing_parameters] raises its
    [TypeError] exactly when an equation of [algebraic], or an equation of
    [rhs] whose key is not a key of [algebraic], holds a Parameter or a
    FunctionParameter; otherwise it passes. An equation of [rhs] under a key
    that [algebraic] has too is not looked at, nor are the initial and the
    boundary conditions. *)
Theorem scan_processed_characterisation :
  forall (M : Model),
    NoDup (map fst (rhs M)) -> NoDup (map fst (algebraic M)) ->
    (scan_processed M =
       Raise (TypeError "Not all Parameter and FunctionParameter objects processed")
     <->
     (exists kv, kv ∈ algebraic M /\ has_parameter kv.2 = true) \/
     (exists kv, kv ∈ rhs M /\ (kv.1 ∉ map fst (algebraic M)) /\
                 has_parameter kv.2 = true)) /\
    (scan_processed M <>
       Raise (TypeError "Not all Parameter and FunctionParameter objects processed")
     -> scan_processed M = Ok tt) /\
    (forall initial boundary,
        scan_processed (mkModel (rhs M) (algebraic M) initial boundary)
        = scan_processed M).
Proof.
  intros M Hrhs Halg. split; [ | split].
  - unfold scan_processed.
    destruct (existsb _ _) eqn:Hex.
    + split; [intros _ | reflexivity].
      apply existsb_exists in Hex as ([k v] & Hin & Hp).
      apply list_elem_of_In, (dict_merge_elem _ _ _ _ Hrhs Halg) in Hin.
      destruct Hin as [Hin | [Hin Hnk]]; [left | right]; exists (k, v); auto.
    + split; [discriminate | ].
      intros Hany. exfalso.
      assert (exists kv, kv ∈ dict_merge (rhs M) (algebraic M) /\
                         has_parameter kv.2 = true) as ([k v] & Hin & Hp).
      { destruct Hany as [([k v] & Hin & Hp) | ([k v] & Hin & Hnk & Hp)];
          exists (k, v); (split; [ | exact Hp]);
          apply (dict_merge_elem _ _ _ _ Hrhs Halg); auto. }
      apply not_true_iff_false in Hex. apply Hex.
      apply existsb_exists. exists (k, v). split; [ | exact Hp].
      apply list_elem_of_In. exact Hin.
  - unfold scan_processed. destruct (existsb _ _); [contradiction | reflexivity].
  - reflexivity.
Qed.

Lemma scan_processed_characterisation_witness :
  has_parameter (Parameter' "Diffusivity") = true /\
  scan_processed example_shadowed_model = Ok tt.
Proof.
  split; [reflexivity | ].
  destruct (scan_processed_characterisation example_shadowed_model)
    as (_ & Hok & _).
  - apply NoDup_singleton.
  - apply NoDup_singleton.
  - apply Hok. vm_compute. discriminate.
Defined.

(** ** The comparison of the widths in [test_update_parameters] *)

Section UnknownWidth.

Context {ModelT V SolverT DiscT : Type} `{EqDecision V}.

Lemma width_changed_unknown (param original : gmap string V) (ws : list string) w :
  List.find (fun w => match param !! w, original !! w with
                      | Some _, None => true
                      | _, _ => false
                      end) ws = Some w ->
  mapM (width_changed param original) ws = Raise (KeyError w).
Proof.
  induction ws as [|w0 ws IH]; simpl; [discriminate | ].
  destruct (param !! w0) as [v|] eqn:Hp.
  - destruct (original !! w0) as [v0|] eqn:Ho.
    + intros Hfind.
      assert (width_changed param original w0 = Ok (negb (bool_decide (v = v0)))) as ->
        by (unfold width_changed, getitem; rewrite Hp, Ho; reflexivity).
      simpl. rewrite (IH Hfind). reflexivity.
    + intros [= <-].
      assert (width_changed param original w0 = Raise (KeyError w0)) as ->
        by (unfold width_changed, getitem; rewrite Hp, Ho; reflexivity).
      reflexivity.
  - intros Hfind.
    assert (width_changed param original w0 = Ok false) as ->
      by (unfold width_changed; rewrite Hp; reflexivity).
    simpl. rewrite (IH Hfind). reflexivity.
Qed.

(** X8: when the new parameter set names a width that the original set
    lacks, [test_update_parameters] raises [KeyError] for the first such
    width in the order negative electrode, separator, positive electrode,
    whatever the values of the widths are; neither the geometry-changed
    error nor [update_model] is reached. *)
Theorem test_update_parameters_unknown_width :
  forall (update_model : gmap string V -> ModelT -> DiscT -> result ModelT)
         (check_well_posedness : ModelT -> result unit)
         (self : @StandardModelTest ModelT V SolverT DiscT)
         (param : gmap string V) (w : string),
    first_unknown_width param (self_parameter_values self) = Some w ->
    test_update_parameters update_model check_well_posedness self param
    = Raise (KeyError w).
Proof.
  intros update_model check_well_posedness self param w Hw.
  unfold test_update_parameters.
  rewrite (width_changed_unknown _ _ _ _ Hw). reflexivity.
Qed.

End UnknownWidth.

Lemma test_update_parameters_unknown_width_witness :
  test_update_parameters (fun _ m _ => Ok m) (fun _ => Ok tt)
    (example_test example_original)
    (<["Positive electrode width [m]" := 1%Z]> example_update)
  = Raise (KeyError "Separator width [m]").
Proof.
  apply test_update_parameters_unknown_width. reflexivity.
Defined.

(** ** The reversal of the nested dict in [get_manufactured_solution_errors] *)

Section AssocProperties.

Context {K V : Type} `{EqDecision K}.

Lemma assoc_get_set_eq (d : list (K * V)) k v :
  assoc_get (assoc_set d k v) k = Some v.
Proof.
  induction d as [|[k0 v0] d IH]; simpl.
  - rewrite decide_True by reflexivity. reflexivity.
  - destruct (decide (k0 = k)) as [-> | Hne]; simpl.
    + rewrite decide_True by reflexivity. reflexivity.
    + rewrite decide_False by exact Hne. exact IH.
Qed.

Lemma assoc_get_set_ne (d : list (K * V)) k v k' :
  k <> k' -> assoc_get (assoc_set d k v) k' = assoc_get d k'.
Proof.
  intros Hne. induction d as [|[k0 v0] d IH]; simpl.
  - rewrite decide_False by exact Hne. reflexivity.
  - destruct (decide (k0 = k)) as [-> | Hne0]; simpl.
    + rewrite !decide_False by exact Hne. reflexivity.
    + destruct (decide (k0 = k')); [reflexivity | exact IH].
Qed.

Lemma assoc_set_keys (d : list (K * V)) k v k' :
  k' ∈ map fst (assoc_set d k v) <-> k' = k \/ k' ∈ map fst d.
Proof.
  induction d as [|[k0 v0] d IH]; simpl.
  - rewrite elem_of_cons. split; intros [Hk | Hk]; auto; inversion Hk.
  - destruct (decide (k0 = k)) as [-> | Hne]; simpl.
    + rewrite !elem_of_cons. tauto.
    + rewrite !elem_of_cons, IH. tauto.
Qed.

Lemma assoc_set_NoDup (d : list (K * V)) k v :
  NoDup (map fst d) -> NoDup (map fst (assoc_set d k v)).
Proof.
  induction d as [|[k0 v0] d IH]; simpl; intros Hnd.
  - apply NoDup_singleton.
  - apply NoDup_cons in Hnd as [Hk0 Hnd].
    destruct (decide (k0 = k)) as [-> | Hne]; simpl.
    + apply NoDup_cons. split; assumption.
    + apply NoDup_cons. split; [ | apply IH; exact Hnd].
      rewrite assoc_set_keys. intros [-> | Hin]; contradiction.
Qed.

Lemma assoc_set_values (Q : V -> Prop) (d : list (K * V)) k v :
  Forall (fun e => Q e.2) d -> Q v -> Forall (fun e => Q e.2) (assoc_set d k v).
Proof.
  induction 1 as [|[k0 v0] d He Hd IH]; intros Hv; simpl.
  - constructor; [exact Hv | constructor].
  - destruct (decide (k0 = k)); constructor; auto.
Qed.

Lemma assoc_get_values (Q : V -> Prop) (d : list (K * V)) k v :
  Forall (fun e => Q e.2) d -> assoc_get d k = Some v -> Q v.
Proof.
  induction 1 as [|[k0 v0] d He Hd IH]; simpl; [discriminate | ].
  destruct (decide (k0 = k)); [intros [= <-]; exact He | exact IH].
Qed.

Lemma assoc_get_None (d : list (K * V)) k :
  k ∉ map fst d -> assoc_get d k = None.
Proof.
  induction d as [|[k0 v0] d IH]; simpl; intros Hk; [reflexivity | ].
  rewrite elem_of_cons in Hk.
  destruct (decide (k0 = k)) as [-> | Hne]; [exfalso; auto | apply IH; auto].
Qed.

Lemma assoc_set_nonempty (d : list (K * V)) k v : assoc_set d k v <> [].
Proof. destruct d as [|[k0 v0] d]; simpl; [ | destruct (decide _)]; discriminate. Qed.

End AssocProperties.

Section ReverseProperties.

Context {N A : Type} `{EqDecision N}.

Lemma lookup_set_nested (acc : list (string * list (N * A))) n var0 x var n' :
  lookup_by_var (set_nested acc n (var0, x)) var n' =
  if decide (var = var0 /\ n' = n) then Some x else lookup_by_var acc var n'.
Proof.
  unfold lookup_by_var, set_nested. simpl.
  destruct (decide (var0 = var)) as [-> | Hvar].
  - rewrite assoc_get_set_eq. simpl.
    destruct (decide (n = n')) as [-> | Hn].
    + rewrite assoc_get_set_eq, decide_True by auto. reflexivity.
    + rewrite assoc_get_set_ne by exact Hn.
      rewrite decide_False by (intros [_ ->]; auto).
      destruct (assoc_get acc var); reflexivity.
  - rewrite assoc_get_set_ne by exact Hvar.
    rewrite decide_False by (intros [-> _]; auto). reflexivity.
Qed.

Lemma lookup_fold_inner (inner : list (string * A)) n
      (acc : list (string * list (N * A))) var n' :
  NoDup (map fst inner) ->
  lookup_by_var (fold_left (fun acc' var_x => set_nested acc' n var_x) inner acc)
                var n' =
  if decide (n' = n)
  then match assoc_get inner var with
       | Some x => Some x
       | None => lookup_by_var acc var n'
       end
  else lookup_by_var acc var n'.
Proof.
  revert acc. induction inner as [|[var0 x0] inner IH]; simpl; intros acc Hnd.
  - destruct (decide (n' = n)); reflexivity.
  - apply NoDup_cons in Hnd as [Hvar0 Hnd].
    rewrite (IH _ Hnd), lookup_set_nested.
    destruct (decide (n' = n)) as [-> | Hn].
    + destruct (decide (var0 = var)) as [-> | Hvar].
      * rewrite (assoc_get_None inner var Hvar0), decide_True by auto. reflexivity.
      * rewrite decide_False by (intros [-> _]; auto). reflexivity.
    + rewrite decide_False by (intros [_ ->]; auto). reflexivity.
Qed.

Lemma lookup_fold_outer (d : list (N * list (string * A)))
      (acc : list (string * list (N * A))) var n :
  NoDup (map fst d) -> Forall (fun e => NoDup (map fst e.2)) d ->
  lookup_by_var
    (fold_left
       (fun acc n_all => fold_left (fun acc' var_x => set_nested acc' n_all.1 var_x)
                                   n_all.2 acc) d acc) var n =
  match lookup_by_n d n var with
  | Some x => Some x
  | None => lookup_by_var acc var n
  end.
Proof.
  revert acc. induction d as [|[n0 inner] d IH]; simpl; intros acc Hnd Hinner.
  - reflexivity.
  - apply NoDup_cons in Hnd as [Hn0 Hnd].
    inversion Hinner as [|? ? Hin0 Hin]; subst. simpl in *.
    rewrite (IH _ Hnd Hin), (lookup_fold_inner _ _ _ _ _ Hin0).
    unfold lookup_by_n. simpl.
    destruct (decide (n0 = n)) as [-> | Hne].
    + rewrite (assoc_get_None d n Hn0), decide_True by reflexivity. simpl.
      reflexivity.
    + rewrite decide_False by auto. reflexivity.
Qed.

(** X9: the reversed dict answers [d[var][n]] as the given dict answers
    [d[n][var]], for every variable and grid size, those of no entry
    included. *)
Theorem reverse_nested_dict_lookup :
  forall (ns_approx_exact_dict : list (N * list (string * A))),
    NoDup (map fst ns_approx_exact_dict) ->
    Forall (fun e => NoDup (map fst e.2)) ns_approx_exact_dict ->
    forall var n,
      lookup_by_var (reverse_nested_dict ns_approx_exact_dict) var n =
      lookup_by_n ns_approx_exact_dict n var.
Proof.
  intros d Hnd Hinner var n. unfold reverse_nested_dict.
  rewrite (lookup_fold_outer d [] var n Hnd Hinner).
  destruct (lookup_by_n d n var); reflexivity.
Qed.

Lemma set_nested_well_formed (acc : list (string * list (N * A))) n var_x :
  well_formed_nested acc -> well_formed_nested (set_nested acc n var_x).
Proof.
  intros [Hkeys Hinner]. unfold set_nested. split.
  - apply assoc_set_NoDup. exact Hkeys.
  - apply (assoc_set_values (fun inner => inner <> [] /\ NoDup (map fst inner)));
      [exact Hinner | ].
    split; [apply assoc_set_nonempty | ].
    apply assoc_set_NoDup.
    destruct (assoc_get acc var_x.1) as [inner|] eqn:Hget; simpl.
    + apply (assoc_get_values (fun inner => inner <> [] /\ NoDup (map fst inner))
               acc _ _ Hinner Hget).
    + constructor.
Qed.

Lemma set_nested_keys (acc : list (string * list (N * A))) n var_x var :
  var ∈ map fst (set_nested acc n var_x) <-> var = var_x.1 \/ var ∈ map fst acc.
Proof. unfold set_nested. apply assoc_set_keys. Qed.

(** X10: the reversed dict is a dict of non-empty dicts: no variable occurs
    twice, no grid size occurs twice under a variable, and every variable has
    a result; its variables are those that occur under some grid size of the
    given dict, so a grid size without results leaves no trace. *)
Theorem reverse_nested_dict_well_formed :
  forall (ns_approx_exact_dict : list (N * list (string * A))),
    NoDup (map fst (reverse_nested_dict ns_approx_exact_dict)) /\
    Forall (fun e => e.2 <> [] /\ NoDup (map fst e.2))
           (reverse_nested_dict ns_approx_exact_dict) /\
    forall var,
      var ∈ map fst (reverse_nested_dict ns_approx_exact_dict) <->
      exists e, e ∈ ns_approx_exact_dict /\ var ∈ map fst e.2.
Proof.
  intros d. unfold reverse_nested_dict.
  assert (Hgen : forall acc,
             well_formed_nested acc ->
             well_formed_nested
               (fold_left
                  (fun acc n_all =>
                     fold_left (fun acc' var_x => set_nested acc' n_all.1 var_x)
                               n_all.2 acc) d acc) /\
             forall var,
               var ∈ map fst
                 (fold_left
                    (fun acc n_all =>
                       fold_left (fun acc' var_x => set_nested acc' n_all.1 var_x)
                                 n_all.2 acc) d acc) <->
               var ∈ map fst acc \/ exists e, e ∈ d /\ var ∈ map fst e.2).
  { induction d as [|[n inner] d IH]; simpl; intros acc Hwf.
    - split; [exact Hwf | ]. intros var. split; [auto | ].
      intros [Hin | (e & He & _)]; [exact Hin | inversion He].
    - assert (Hin : well_formed_nested
                      (fold_left (fun acc' var_x => set_nested acc' n var_x) inner acc)
                    /\ forall var,
                        var ∈ map fst
                          (fold_left (fun acc' var_x => set_nested acc' n var_x)
                                     inner acc) <->
                        var ∈ map fst acc \/ var ∈ map fst inner).
      { clear IH. revert acc Hwf.
        induction inner as [|var_x inner IHi]; simpl; intros acc Hwf.
        - split; [exact Hwf | ]. intros var. split; [auto | ].
          intros [Hin | Hin]; [exact Hin | inversion Hin].
        - destruct (IHi _ (set_nested_well_formed acc n var_x Hwf)) as [Hwf' Hk].
          split; [exact Hwf' | ]. intros var.
          rewrite Hk, set_nested_keys, elem_of_cons. tauto. }
      destruct Hin as [Hwf1 Hk1].
      destruct (IH _ Hwf1) as [Hwf2 Hk2].
      split; [exact Hwf2 | ]. intros var. rewrite Hk2, Hk1. split.
      + intros [[Hin | Hin] | (e & He & Hv)]; auto.
        * right. exists (n, inner). split; [left | exact Hin].
        * right. exists e. split; [right; exact He | exact Hv].
      + intros [Hin | (e & He & Hv)]; auto.
        apply elem_of_cons in He as [-> | He]; [left; right; exact Hv | ].
        right. exists e. auto. }
  destruct (Hgen []) as [[Hkeys Hinner] Hvars].
  { split; constructor. }
  split; [exact Hkeys | ]. split; [exact Hinner | ].
  intros var. rewrite Hvars. split.
  - intros [Hin | He]; [inversion Hin | exact He].
  - auto.
Qed.

End ReverseProperties.

Lemma reverse_nested_dict_lookup_witness :
  lookup_by_var (reverse_nested_dict example_ns_dict) "c_e" 4 =
  lookup_by_n example_ns_dict 4 "c_e".
Proof.
  apply (reverse_nested_dict_lookup example_ns_dict).
  - apply (bool_decide_unpack _). vm_compute. exact I.
  - repeat constructor; apply (bool_decide_unpack _); vm_compute; exact I.
Defined.

Example reverse_nested_dict_example :
  reverse_nested_dict example_ns_dict =
  [ ("c_e", [(2, 10%Z); (4, 11%Z)]); ("phi_e", [(2, 20%Z)]) ].
Proof. reflexivity. Qed.

(** ** What a passing [test_all] has checked *)

Section TestAll.

Context {V SolverT DiscT TEvalT : Type}.

(** X11: when [test_all] returns, the model passed [check_well_posedness]
    before anything was done to it, after the parameter values processed it
    and, with [post_discretisation=True], after the discretisation processed
    it; the scan found no parameter; the solver solved the discretised
    model; the parameter values, the discretisation and the solver are the
    ones given to [test_all] where one was given (any object that is not
    [None]) and those of the object otherwise; and for a battery model whose
    output tests were not skipped, the output tests passed on these. *)
Theorem test_all_guarantees :
  forall (parameter_values_process_model : gmap string V -> Model -> result Model)
         (check_well_posedness : bool -> Model -> result unit)
         (disc_process_model : DiscT -> Model -> result Model)
         (solver_solve : SolverT -> Model -> TEvalT -> result SolverT)
         (standard_output_tests :
            Model -> gmap string V -> DiscT -> SolverT -> result unit)
         (is_battery_model : Model -> bool) (default_t_eval : TEvalT)
         (self self' : @StandardModelTest Model V SolverT DiscT)
         (param : option (gmap string V)) (disc : option DiscT)
         (solver : option SolverT) (t_eval : option TEvalT)
         (skip_output_tests : bool),
    test_all parameter_values_process_model check_well_posedness
      disc_process_model solver_solve standard_output_tests is_battery_model
      default_t_eval self param disc solver t_eval skip_output_tests = Ok self' ->
    check_well_posedness false (self_model self) = Ok tt /\
    (exists processed,
        parameter_values_process_model
          (overwrite param (self_parameter_values self)) (self_model self)
        = Ok processed /\
        check_well_posedness false processed = Ok tt /\
        scan_processed processed = Ok tt /\
        disc_process_model (overwrite disc (self_disc self)) processed
        = Ok (self_model self')) /\
    check_well_posedness true (self_model self') = Ok tt /\
    solver_solve (overwrite solver (self_solver self)) (self_model self')
      (overwrite t_eval default_t_eval) = Ok (self_solver self') /\
    self_parameter_values self' = overwrite param (self_parameter_values self) /\
    self_disc self' = overwrite disc (self_disc self) /\
    self_param self' = self_param self /\
    (is_battery_model (self_model self') = true -> skip_output_tests = false ->
     standard_output_tests (self_model self') (self_parameter_values self')
       (self_disc self') (self_solver self') = Ok tt).
Proof.
  intros pm cwp dpm solve outputs is_battery default_t_eval self self'
         param disc solver t_eval skip Hall.
  unfold test_all in Hall.
  apply bind_Ok in Hall as ([] & Hcheck0 & Hall).
  apply bind_Ok in Hall as (s1 & Hpar & Hall).
  apply bind_Ok in Hall as (s2 & Hdisc & Hall).
  apply bind_Ok in Hall as (s3 & Hsolve & Hall).
  unfold test_processing_parameters in Hpar.
  apply bind_Ok in Hpar as (processed & Hpm & Hpar).
  apply bind_Ok in Hpar as ([] & Hcheck1 & Hpar).
  apply bind_Ok in Hpar as ([] & Hscan & Hpar).
  injection Hpar as <-.
  unfold test_processing_disc in Hdisc. simpl in Hdisc.
  apply bind_Ok in Hdisc as (discretised & Hdpm & Hdisc).
  apply bind_Ok in Hdisc as ([] & Hcheck2 & Hdisc).
  injection Hdisc as <-.
  unfold test_solving in Hsolve. simpl in Hsolve.
  apply bind_Ok in Hsolve as (solver' & Hsol & Hsolve).
  injection Hsolve as <-. simpl in Hall.
  assert (Hself : self' = mkStandardModelTest discretised
                            (overwrite param (self_parameter_values self)) solver'
                            (overwrite disc (self_disc self)) (self_param self) /\
                  (is_battery discretised && negb skip = true ->
                   outputs discretised (overwrite param (self_parameter_values self))
                     (overwrite disc (self_disc self)) solver' = Ok tt)).
  { destruct (is_battery discretised && negb skip) eqn:Hif.
    - apply bind_Ok in Hall as ([] & Hout & Hall). injection Hall as <-.
      split; [reflexivity | intros _; exact Hout].
    - injection Hall as <-. split; [reflexivity | discriminate]. }
  destruct Hself as [-> Hout]. simpl.
  split; [exact Hcheck0 | ].
  split; [exists processed; auto | ].
  repeat split; try assumption.
  intros Hb Hs. apply Hout. rewrite Hb, Hs. reflexivity.
Qed.

End TestAll.

Lemma test_all_guarantees_witness :
  match
    test_all (fun _ m => Ok m) (fun _ _ => Ok tt) (fun _ m => Ok m)
      (fun solver _ t_eval => Ok (solver + t_eval)) (fun _ _ _ _ => Ok tt)
      (fun _ => true) 100 example_standard_test (Some ∅) None (Some 7) None false
  with
  | Ok self' =>
      self_parameter_values self' = ∅ /\ self_disc self' = 2 /\
      self_solver self' = 107
  | Raise _ => False
  end.
Proof.
  match goal with
  | |- match ?run with _ => _ end => destruct run as [self'|e] eqn:Hall
  end.
  - destruct (test_all_guarantees _ _ _ _ _ _ _ _ _ _ _ _ _ _ Hall)
      as (_ & _ & _ & Hsolve & Hpv & Hdisc & _).
    split; [exact Hpv | ]. split; [exact Hdisc | ].
    simpl in Hsolve. injection Hsolve as <-. reflexivity.
  - vm_compute in Hall. discriminate Hall.
Defined.
